(** * birds-template: the durable job queue, the worker loop and the observer

    A shallow embedding of [src/lib/types.ts], [src/lib/queue.ts],
    [src/worker/worker.ts], [src/observer/observer.ts] and the [POST /bird]
    handler of [src/index.ts].

    Conventions of the embedding.
    - A JavaScript string is a [string]: a sequence of code units, here
      restricted to the 8-bit range (Latin-1).  String order is the
      code-unit lexicographic order [String.compare], which is also the byte
      order LMDB uses for keys in that range.
    - A JavaScript number that holds a time in milliseconds or a counter is
      an integer of [Z].  [Date.now()] is an explicit argument [now].
    - An LMDB table is a [gmap] from its keys; a range scan sorts the
      entries by key.  A [transactionSync] block is one state transition.
    - A write with a key longer than the store's bound throws; this is
      modelled where a request reaches the store with a key of its own
      making, in [submitJob] behind [POST /bird].
    - [CONFIG] ([src/lib/config.ts]) is a parameter of the development. *)

From Stdlib Require Import ZArith QArith Ascii String.
From stdpp Require Import gmap strings list sorting.

Close Scope Q_scope.
Open Scope Z_scope.

(** ** JavaScript string primitives *)

Module Js.

Definition code (c : ascii) : Z := Z.of_N (N_of_ascii c).
Definition char_of (n : Z) : ascii := ascii_of_N (Z.to_N n).

(** [String(n)] for an integer-valued number below [10^21] in absolute
    value: the decimal digits, most significant first, after a minus sign
    when negative. *)
Definition digit_char (d : Z) : ascii := char_of (48 + d).

Fixpoint digits_of (fuel : nat) (n : Z) (acc : string) : string :=
  match fuel with
  | O => acc
  | S fuel' =>
      let acc' := String (digit_char (n mod 10)) acc in
      if n <? 10 then acc' else digits_of fuel' (n / 10) acc'
  end.

Definition digits_fuel (n : Z) : nat := S (Z.to_nat (Z.log2 n)).

Definition String_of_number (n : Z) : string :=
  if n <? 0 then String "-"%char (digits_of (digits_fuel (- n)) (- n) "")
  else digits_of (digits_fuel n) n "".

(** [s.padStart(targetLength, fill)]: the filler is [fill] repeated and cut
    to the missing length; nothing is added when [s] is long enough or
    [fill] is empty. *)
Fixpoint repeat_fill (n : nat) (fill rest : string) : string :=
  match n with
  | O => ""
  | S n' =>
      match rest with
      | String c r => String c (repeat_fill n' fill r)
      | EmptyString =>
          match fill with
          | String c r => String c (repeat_fill n' fill r)
          | EmptyString => ""
          end
      end
  end.

Definition padStart (targetLength : nat) (fill : string) (s : string) : string :=
  repeat_fill (targetLength - String.length s) fill fill +:+ s.

(** [s.slice(0, n)] for [n >= 0]. *)
Fixpoint slice0 (n : nat) (s : string) : string :=
  match n, s with
  | S n', String c r => String c (slice0 n' r)
  | _, _ => ""
  end.

(** White space of [parseInt] and of the regular expression class [\s]. *)
Definition is_white_space (c : ascii) : bool :=
  let n := code c in
  ((9 <=? n) && (n <=? 13)) || (n =? 32) || (n =? 160).

Fixpoint trim_start (s : string) : string :=
  match s with
  | String c r => if is_white_space c then trim_start r else s
  | EmptyString => ""
  end.

Definition digit_val (c : ascii) : option Z :=
  let n := code c in
  if (48 <=? n) && (n <=? 57) then Some (n - 48) else None.

Fixpoint parse_digits (s : string) (acc : option Z) : option Z :=
  match s with
  | String c r =>
      match digit_val c with
      | Some d => parse_digits r (Some (10 * default 0 acc + d))
      | None => acc
      end
  | EmptyString => acc
  end.

(** [parseInt(s, 10)]; [None] is [NaN]. *)
Definition parseInt (s : string) : option Z :=
  let s1 := trim_start s in
  let '(sign, s2) :=
    match s1 with
    | String "-"%char r => (-1, r)
    | String "+"%char r => (1, r)
    | _ => (1, s1)
    end in
  Z.mul sign <$> parse_digits s2 None.

(** [a > b] where [a] may be [NaN]: a comparison with [NaN] is false. *)
Definition gt (a : option Z) (b : Z) : bool :=
  match a with
  | Some x => b <? x
  | None => false
  end.

(** [s.toLowerCase()] on the 8-bit range. *)
Definition toLowerCase_char (c : ascii) : ascii :=
  let n := code c in
  if ((65 <=? n) && (n <=? 90))
     || ((192 <=? n) && (n <=? 222) && negb (n =? 215))
  then char_of (n + 32) else c.

Fixpoint toLowerCase (s : string) : string :=
  match s with
  | String c r => String (toLowerCase_char c) (toLowerCase r)
  | EmptyString => ""
  end.

(** [s.replace(/\s+/g, by)]: every maximal run of white space becomes one
    copy of [by]. *)
Fixpoint replace_ws_runs (by_ : string) (in_run : bool) (s : string) : string :=
  match s with
  | String c r =>
      if is_white_space c
      then (if in_run then replace_ws_runs by_ true r
            else by_ +:+ replace_ws_runs by_ true r)
      else String c (replace_ws_runs by_ false r)
  | EmptyString => ""
  end.

End Js.

(** ** [src/lib/config.ts] *)

Record Config := {
  POLL_INTERVAL_MS : Z;
  BASE_DELAY_MS : Z;
  MAX_RETRIES : Z;
  DEFAULT_METRICS_WINDOW_MS : Z;
  TIMESTAMP_PAD_LENGTH : nat;
}.

(** Modelled from the spec: the values of [CONFIG], whose file
    [src/lib/config.ts] is not part of the sources at hand.  The
    specification gives the defaults 250 ms, 1000 ms, 3 hours and a key
    width of 13; the tests use 3 for the retry budget. *)
Definition default_config : Config := {|
  POLL_INTERVAL_MS := 250;
  BASE_DELAY_MS := 1000;
  MAX_RETRIES := 3;
  DEFAULT_METRICS_WINDOW_MS := 10800000;
  TIMESTAMP_PAD_LENGTH := 13;
|}.

(** ** [src/lib/types.ts] *)

Inductive ActionType :=
  | JOB_SUBMITTED | JOB_DUPLICATE | JOB_CLAIMED | JOB_COMPLETED
  | JOB_RETRY | JOB_FAILED | API_REQUEST | WORKER_START.

Inductive LogType := log_ | warning | error.

Inductive JobStatus := queued | processing | completed | failed.

#[global] Instance ActionType_eq_dec : EqDecision ActionType.
Proof. solve_decision. Defined.
#[global] Instance JobStatus_eq_dec : EqDecision JobStatus.
Proof. solve_decision. Defined.

(** The payload of a job: a string-keyed bag, [{}] is the empty map. *)
Abbreviation Body := (gmap string string).

Record ResearchJob := {
  id : string;
  name : string;
  createdAt : Z;
  availableForProcessingAt : Z;
  retryCount : Z;
  status : JobStatus;
  body : Body;
}.

Definition toJobId (name : string) : string :=
  Js.replace_ws_runs "-" false (Js.toLowerCase name).

(** ** The LMDB tables ([src/lib/db.ts] hands out the store) *)

Section Table.
Context {V : Type}.

Definition key_le (a b : string * V) : Prop := String.leb a.1 b.1 = true.

#[global] Instance key_le_dec a b : Decision (key_le a b).
Proof. unfold key_le. apply _. Defined.

Definition from_start (start : option string) (k : string) : bool :=
  match start with
  | Some s => String.leb s k
  | None => true
  end.

(** [db.getRange({ start })]: the entries whose key is at least [start],
    in ascending key order; without [start] all of them. *)
Definition getRange (start : option string) (m : gmap string V)
  : list (string * V) :=
  merge_sort key_le
    (filter (λ e, from_start start e.1 = true) (map_to_list m)).

(** [db.getRange({ limit: 1 })]. *)
Definition getRange_limit1 (m : gmap string V) : list (string * V) :=
  take 1 (getRange None m).
End Table.

(** LMDB stores a key of at most [maxKeySize] bytes: 1978 with the defaults
    of the lmdb package, a dependency of the repository, so the bound is a
    parameter.  A string key is written as UTF-8: one byte for a
    code unit below 128, two for the others of the 8-bit range.  [putSync]
    with a longer key throws, and a [transactionSync] block in which that
    happens stores nothing. *)
Fixpoint key_bytes (key : string) : nat :=
  match key with
  | String c r => ((if (Js.code c <? 128)%Z then 1 else 2) + key_bytes r)%nat
  | EmptyString => 0%nat
  end.

Definition key_fits (maxKeySize : nat) (key : string) : bool :=
  (key_bytes key <=? maxKeySize)%nat.

(** ** [src/lib/queue.ts] *)

Section Queue.
Variable CONFIG : Config.

Definition indexKey (timestamp : Z) (jobId : string) : string :=
  Js.padStart (TIMESTAMP_PAD_LENGTH CONFIG) "0" (Js.String_of_number timestamp)
    +:+ "-" +:+ jobId.

Record Queue := {
  jobs : gmap string ResearchJob;
  queueIndex : gmap string string;
}.

Definition empty_queue : Queue := {| jobs := ∅; queueIndex := ∅ |}.

(** [submitJob] when it returns, that is when no [putSync] throws; the
    calls that throw are those of [submitJob_throws] below. *)
Definition submitJob (now : Z) (request_name : string) (q : Queue)
  : (ResearchJob * bool) * Queue :=
  let jobId := toJobId request_name in
  match jobs q !! jobId with
  | Some existing =>
      if decide (status existing = failed) then
        let resetJob := {|
          id := id existing;
          name := name existing;
          createdAt := now;
          availableForProcessingAt := now;
          retryCount := 0;
          status := queued;
          body := ∅;
        |} in
        ((resetJob, false),
         {| jobs := <[jobId := resetJob]> (jobs q);
            queueIndex := <[indexKey now jobId := jobId]> (queueIndex q) |})
      else ((existing, true), q)
  | None =>
      let job := {|
        id := jobId;
        name := request_name;
        createdAt := now;
        availableForProcessingAt := now;
        retryCount := 0;
        status := queued;
        body := ∅;
      |} in
      ((job, false),
       {| jobs := <[jobId := job]> (jobs q);
          queueIndex := <[indexKey now jobId := jobId]> (queueIndex q) |})
  end.

(** Whether a call of [submitJob] throws instead of returning: it does
    when it reaches its two [putSync] calls ([isDuplicate] would be false)
    and the store refuses the job id or the index key.  The transaction is
    then aborted and the queue is left as it was. *)
Definition submitJob_throws (maxKeySize : nat) (now : Z)
  (request_name : string) (q : Queue) : bool :=
  let jobId := toJobId request_name in
  let refused :=
    negb (key_fits maxKeySize jobId
          && key_fits maxKeySize (indexKey now jobId)) in
  match jobs q !! jobId with
  | Some existing =>
      if decide (status existing = failed) then refused else false
  | None => refused
  end.

(** The body of the [for] loop of [claimJob] on one index entry. *)
Definition claim_entry (now : Z) (key value : string) (q : Queue)
  : option ResearchJob * Queue :=
  let timestamp := Js.parseInt (Js.slice0 (TIMESTAMP_PAD_LENGTH CONFIG) key) in
  if Js.gt timestamp now then (None, q)
  else
    match jobs q !! value with
    | None =>
        (None, {| jobs := jobs q; queueIndex := delete key (queueIndex q) |})
    | Some job =>
        let updated := {|
          id := id job;
          name := name job;
          createdAt := createdAt job;
          availableForProcessingAt := availableForProcessingAt job;
          retryCount := retryCount job;
          status := processing;
          body := body job;
        |} in
        (Some updated,
         {| jobs := <[id job := updated]> (jobs q);
            queueIndex := delete key (queueIndex q) |})
    end.

Definition claimJob (now : Z) (q : Queue) : option ResearchJob * Queue :=
  match getRange_limit1 (queueIndex q) with
  | (key, value) :: _ => claim_entry now key value q
  | [] => (None, q)
  end.

Definition getJob (jobId : string) (q : Queue) : option ResearchJob :=
  jobs q !! jobId.

Definition completeJob (jobId : string) (body' : Body) (q : Queue)
  : option ResearchJob * Queue :=
  match jobs q !! jobId with
  | None => (None, q)
  | Some job =>
      let updated := {|
        id := id job;
        name := name job;
        createdAt := createdAt job;
        availableForProcessingAt := availableForProcessingAt job;
        retryCount := retryCount job;
        status := completed;
        body := body';
      |} in
      (Some updated,
       {| jobs := <[jobId := updated]> (jobs q); queueIndex := queueIndex q |})
  end.

Definition retryJob (jobId : string) (nextAvailableAt : Z) (q : Queue)
  : option ResearchJob * Queue :=
  match jobs q !! jobId with
  | None => (None, q)
  | Some job =>
      let updated := {|
        id := id job;
        name := name job;
        createdAt := createdAt job;
        availableForProcessingAt := nextAvailableAt;
        retryCount := retryCount job + 1;
        status := queued;
        body := body job;
      |} in
      (Some updated,
       {| jobs := <[jobId := updated]> (jobs q);
          queueIndex :=
            <[indexKey nextAvailableAt jobId := jobId]> (queueIndex q) |})
  end.

Definition failJob (jobId : string) (q : Queue)
  : option ResearchJob * Queue :=
  match jobs q !! jobId with
  | None => (None, q)
  | Some job =>
      let updated := {|
        id := id job;
        name := name job;
        createdAt := createdAt job;
        availableForProcessingAt := availableForProcessingAt job;
        retryCount := retryCount job;
        status := failed;
        body := body job;
      |} in
      (Some updated,
       {| jobs := <[jobId := updated]> (jobs q); queueIndex := queueIndex q |})
  end.
End Queue.

(** ** [src/worker/worker.ts] *)

(** The result of [await processJob(job)], an external call. *)
Inductive Outcome := Resolved (result : Body) | Rejected.

Section Worker.
Variable CONFIG : Config.

(** [jitter] is the value of [Math.random() * CONFIG.BASE_DELAY_MS]. *)
Definition computeBackoff (now jitter retryCount : Z) : Z :=
  let delay := 2 ^ (retryCount + 1) * BASE_DELAY_MS CONFIG in
  now + delay + jitter.

(** The part of [poll] that runs once [processJob] has settled; [job] is
    the record [claimJob] returned to this worker.  The second component is
    the event the worker logs. *)
Definition on_settled (now jitter : Z) (job : ResearchJob) (o : Outcome)
  (q : Queue) : Queue * (ActionType * LogType) :=
  match o with
  | Resolved result =>
      ((completeJob (id job) result q).2, (JOB_COMPLETED, log_))
  | Rejected =>
      if MAX_RETRIES CONFIG <=? retryCount job then
        ((failJob (id job) q).2, (JOB_FAILED, error))
      else
        let nextAvailableAt := computeBackoff now jitter (retryCount job) in
        ((retryJob CONFIG (id job) nextAvailableAt q).2, (JOB_RETRY, warning))
  end.

(** The queue together with the jobs that workers hold between their
    [claimJob] and the settlement of [processJob]. *)
Record System := {
  queue : Queue;
  inflight : list ResearchJob;
}.

Definition initial : System := {| queue := empty_queue; inflight := [] |}.

(** One tick of some worker up to its [await]. *)
Definition poll_claim (now : Z) (s : System) : System :=
  match claimJob CONFIG now (queue s) with
  | (Some job, q') => {| queue := q'; inflight := job :: inflight s |}
  | (None, q') => {| queue := q'; inflight := inflight s |}
  end.

(** The specified behaviour: submissions through the admission surface and
    the two halves of a worker tick, interleaved in any order. *)
Inductive step : System → System → Prop :=
  | step_submit s now request_name :
      step s {| queue := (submitJob CONFIG now request_name (queue s)).2;
                inflight := inflight s |}
  | step_claim s now :
      step s (poll_claim now s)
  | step_settled s l1 job l2 now jitter o :
      inflight s = l1 ++ job :: l2 →
      step s {| queue := (on_settled now jitter job o (queue s)).1;
                inflight := l1 ++ l2 |}.

Inductive reachable : System → Prop :=
  | reachable_initial : reachable initial
  | reachable_step s s' : reachable s → step s s' → reachable s'.
End Worker.

(** ** [src/observer/observer.ts] *)

Module Observer.

Record LogAction := {
  id : string;
  timestamp : Z;
  type : LogType;
  action : ActionType;
  body : Body;
}.

Record Metrics := {
  submitted : Z;
  completed : Z;
  failed : Z;
  failureRate : Q;
  avgProcessingTimeMs : option Q;
}.

(** The counters and the two [Map]s of the scan loop of [getMetrics]. *)
Record Scan := {
  n_submitted : Z;
  n_completed : Z;
  n_failed : Z;
  claimedTimes : gmap string Z;
  completedTimes : gmap string Z;
}.

Definition scan_start : Scan := {|
  n_submitted := 0; n_completed := 0; n_failed := 0;
  claimedTimes := ∅; completedTimes := ∅;
|}.

(** [entry.body?.jobId] when it is truthy. *)
Definition body_jobId (entry : LogAction) : option string :=
  match body entry !! "jobId" with
  | Some j => if decide (j = "") then None else Some j
  | None => None
  end.

Definition set_time (entry : LogAction) (times : gmap string Z) : gmap string Z :=
  match body_jobId entry with
  | Some j => <[j := timestamp entry]> times
  | None => times
  end.

(** The [switch] on [entry.action]. *)
Definition scan_entry (acc : Scan) (kv : string * LogAction) : Scan :=
  let entry := kv.2 in
  match action entry with
  | JOB_SUBMITTED =>
      {| n_submitted := n_submitted acc + 1; n_completed := n_completed acc;
         n_failed := n_failed acc; claimedTimes := claimedTimes acc;
         completedTimes := completedTimes acc |}
  | JOB_COMPLETED =>
      {| n_submitted := n_submitted acc; n_completed := n_completed acc + 1;
         n_failed := n_failed acc; claimedTimes := claimedTimes acc;
         completedTimes := set_time entry (completedTimes acc) |}
  | JOB_FAILED =>
      {| n_submitted := n_submitted acc; n_completed := n_completed acc;
         n_failed := n_failed acc + 1; claimedTimes := claimedTimes acc;
         completedTimes := completedTimes acc |}
  | JOB_CLAIMED =>
      {| n_submitted := n_submitted acc; n_completed := n_completed acc;
         n_failed := n_failed acc; claimedTimes := set_time entry (claimedTimes acc);
         completedTimes := completedTimes acc |}
  | _ => acc
  end.

(** [a / b] on two integers, as an exact fraction. *)
Definition js_div (a b : Z) : Q := (inject_Z a / inject_Z b)%Q.

Section Observer.
Variable CONFIG : Config.

Definition timeKey (t : Z) : string :=
  Js.padStart (TIMESTAMP_PAD_LENGTH CONFIG) "0" (Js.String_of_number t).

(** The entries [getMetrics] scans: [this.db.getRange({ start: startKey })].
    All keys of the table are strings, so the loop skips none. *)
Definition scanned (now windowMs : Z) (db : gmap string LogAction)
  : list (string * LogAction) :=
  let windowStart := now - windowMs in
  let startKey := timeKey windowStart in
  getRange (Some startKey) db.

Definition getMetrics (now : Z) (windowMs' : option Z)
  (db : gmap string LogAction) : Metrics :=
  let windowMs := default (DEFAULT_METRICS_WINDOW_MS CONFIG) windowMs' in
  let acc := fold_left scan_entry (scanned now windowMs db) scan_start in
  let total := n_completed acc + n_failed acc in
  let failureRate := if total =? 0 then 0%Q else js_div (n_failed acc) total in
  let processingTimes :=
    omap (λ kv, (λ claimedAt, kv.2 - claimedAt) <$> claimedTimes acc !! kv.1)
         (map_to_list (completedTimes acc)) in
  let avgProcessingTimeMs :=
    if decide (0 < length processingTimes)%nat
    then Some (js_div (foldr Z.add 0 processingTimes)
                      (Z.of_nat (length processingTimes)))
    else None in
  {| submitted := n_submitted acc; completed := n_completed acc;
     failed := n_failed acc; failureRate := failureRate;
     avgProcessingTimeMs := avgProcessingTimeMs |}.

(** [log], with [uuid] the value of [crypto.randomUUID()]; the failure-rate
    check that follows a [job-failed] entry only prints. *)
Definition log (now : Z) (uuid : string) (action' : ActionType)
  (type' : LogType) (body' : Body) (db : gmap string LogAction)
  : gmap string LogAction :=
  let entry := {| id := uuid; timestamp := now; type := type';
                  action := action'; body := body' |} in
  let key := timeKey (timestamp entry) +:+ "-" +:+ id entry in
  <[key := entry]> db.
End Observer.

End Observer.

(** ** [src/index.ts]: the [POST /bird] handler *)

(** A value of a parsed JSON body; [JsUndefined] is an absent field. *)
Inductive JsValue :=
  | JsUndefined | JsNull | JsBoolean (b : bool) | JsNumber (n : Z)
  | JsString (s : string) | JsObject.

Definition truthy (v : JsValue) : bool :=
  match v with
  | JsUndefined | JsNull => false
  | JsBoolean b => b
  | JsNumber n => negb (n =? 0)
  | JsString s => negb (String.eqb s "")
  | JsObject => true
  end.

Definition typeof_string (v : JsValue) : bool :=
  match v with JsString _ => true | _ => false end.

Inductive Json :=
  | ErrorJson (error' : string)
  | JobJson (id' name' : string) (status' : JobStatus) (createdAt' : Z).

Record Response := { statusCode : Z; json : Json }.

Record App := {
  app_queue : Queue;
  app_observer : gmap string Observer.LogAction;
}.

Section Api.
Variable CONFIG : Config.
Variable maxKeySize : nat.

Definition job_json (job : ResearchJob) : Json :=
  JobJson (id job) (name job) (status job) (createdAt job).

Definition status_string (s : JobStatus) : string :=
  match s with
  | queued => "queued" | processing => "processing"
  | completed => "completed" | failed => "failed"
  end.

(** The handler; [now] and [now_log] are the readings of the clock in
    [submitJob] and in [observer.log], [uuid] the id of the logged event.
    The handler has no [try]: when [submitJob] throws, it sends no response
    (the result [None]; the exception goes to express) and nothing was
    stored. *)
Definition post_bird (now now_log : Z) (uuid : string) (name' : JsValue)
  (app : App) : option Response * App :=
  let bad_request :=
    (Some {| statusCode := 400;
             json := ErrorJson "Missing required field: name" |}, app) in
  if negb (truthy name') || negb (typeof_string name') then bad_request
  else
    match name' with
    | JsString s =>
        if submitJob_throws CONFIG maxKeySize now s (app_queue app)
        then (None, app)
        else
          let '((job, isDuplicate), q') :=
            submitJob CONFIG now s (app_queue app) in
          if isDuplicate then
            (Some {| statusCode := 200; json := job_json job |},
             {| app_queue := q';
                app_observer :=
                  Observer.log CONFIG now_log uuid JOB_DUPLICATE log_
                    (<["jobId" := id job]>
                       (<["name" := name job]>
                          {["currentStatus" := status_string (status job)]}))
                    (app_observer app) |})
          else
            (Some {| statusCode := 201; json := job_json job |},
             {| app_queue := q';
                app_observer :=
                  Observer.log CONFIG now_log uuid JOB_SUBMITTED log_
                    (<["jobId" := id job]> {["name" := name job]})
                    (app_observer app) |})
    | _ => bad_request
    end.
End Api.

(** ** Auxiliary notions used by the statements *)

(** The [w] lowest decimal digits of [n], most significant first, in front
    of [acc]. *)
Fixpoint fixed_digits (w : nat) (n : Z) (acc : string) : string :=
  match w with
  | O => acc
  | S w' => fixed_digits w' (n / 10) (String (Js.digit_char (n mod 10)) acc)
  end.

(** The number of characters of [String(t)]. *)
Definition decimal_digits (t : Z) : nat := String.length (Js.String_of_number t).

(** Numeric order on the time stamp, then string order on the id. *)
Definition entry_lt (e1 e2 : Z * string) : Prop :=
  e1.1 < e2.1 ∨ (e1.1 = e2.1 ∧ String.ltb e1.2 e2.2 = true).

(** The number of entries of a scan whose action is [a]. *)
Definition count_action (a : ActionType) (l : list (string * Observer.LogAction)) : Z :=
  Z.of_nat (length (filter (λ kv, Observer.action kv.2 = a) l)).

(** [q'] holds no retry count that is neither [0] nor already in [q]. *)
Definition no_increment (q q' : Queue) : Prop :=
  ∀ k j', jobs q' !! k = Some j' →
    retryCount j' = 0 ∨ ∃ k0 j, jobs q !! k0 = Some j ∧ retryCount j = retryCount j'.

(** The invariant of the system of queue and workers. *)
Record consistent (CONFIG : Config) (s : System) : Prop := {
  inv_ids : ∀ k j, jobs (queue s) !! k = Some j → id j = k;
  inv_bound : ∀ k j,
    jobs (queue s) !! k = Some j → retryCount j ≤ MAX_RETRIES CONFIG;
  inv_index : ∀ key v,
    queueIndex (queue s) !! key = Some v →
    ∃ j, jobs (queue s) !! v = Some j ∧ status j = queued;
  inv_unique : ∀ k1 k2 v,
    queueIndex (queue s) !! k1 = Some v →
    queueIndex (queue s) !! k2 = Some v → k1 = k2;
  inv_held : ∀ job,
    job ∈ inflight s →
    ∃ j, jobs (queue s) !! id job = Some j ∧ status j = processing
         ∧ retryCount j = retryCount job;
  inv_nodup : NoDup (id <$> inflight s);
}.

(** A time stamp that a key encodes in full: a non-negative integer of at
    most [TIMESTAMP_PAD_LENGTH] decimal digits. *)
Definition in_range (CONFIG : Config) (t : Z) : Prop :=
  0 ≤ t ∧ (decimal_digits t ≤ TIMESTAMP_PAD_LENGTH CONFIG)%nat.

(** The window of the metrics as the specification words it: the events
    with [timestamp ≥ now - windowMs]. *)
Definition in_window (now windowMs : Z) (e : Observer.LogAction) : Prop :=
  now - windowMs ≤ Observer.timestamp e.

#[global] Instance in_window_dec now windowMs e :
  Decision (in_window now windowMs e).
Proof. unfold in_window. apply _. Defined.

(** The number of events of the log with action [a] inside the window. *)
Definition window_count (a : ActionType) (now windowMs : Z)
  (db : gmap string Observer.LogAction) : Z :=
  Z.of_nat
    (size (filter (λ kv : string * Observer.LogAction,
                     Observer.action kv.2 = a ∧ in_window now windowMs kv.2)
                  db)).

(** The states of the event log: the table starts empty and [Observer.log]
    is its only writer; [now] is the value of [Date.now()] at the call. *)
Inductive logged (CONFIG : Config) : gmap string Observer.LogAction → Prop :=
  | logged_empty : logged CONFIG ∅
  | logged_log now uuid action' type' body' db :
      in_range CONFIG now →
      logged CONFIG db →
      logged CONFIG (Observer.log CONFIG now uuid action' type' body' db).

(** What [Observer.log] maintains: every entry sits under the key made of
    its own time stamp and id, and the time stamp is in range. *)
Definition log_keyed (CONFIG : Config) (db : gmap string Observer.LogAction)
  : Prop :=
  ∀ k e, db !! k = Some e →
    in_range CONFIG (Observer.timestamp e)
    ∧ k = Observer.timeKey CONFIG (Observer.timestamp e)
          +:+ "-" +:+ Observer.id e.

(** * Properties *)

(** ** Strings *)

Lemma ascii_compare_code a b : Ascii.compare a b = (Js.code a ?= Js.code b).
Proof. unfold Ascii.compare, Js.code. by rewrite N2Z.inj_compare. Qed.

Lemma string_compare_cons a s b t :
  String.compare (String a s) (String b t)
  = match Js.code a ?= Js.code b with Eq => String.compare s t | c => c end.
Proof. simpl. rewrite ascii_compare_code. by destruct (_ ?= _). Qed.

Lemma string_leb_trans s1 s2 s3 :
  String.leb s1 s2 = true → String.leb s2 s3 = true → String.leb s1 s3 = true.
Proof.
  unfold String.leb. revert s2 s3.
  induction s1 as [|a s1 IH]; intros [|b s2] [|c s3]; try done.
  rewrite !string_compare_cons. intros H12 H23.
  destruct (Z.compare_spec (Js.code a) (Js.code b));
    destruct (Z.compare_spec (Js.code b) (Js.code c));
    destruct (Z.compare_spec (Js.code a) (Js.code c));
    try done; try lia.
  by eapply IH.
Qed.

Lemma string_compare_refl s : String.compare s s = Eq.
Proof.
  induction s as [|a s IH]; [done |].
  by rewrite string_compare_cons, Z.compare_refl.
Qed.

Lemma string_ltb_leb s t : String.ltb s t = true → String.leb t s = false.
Proof.
  unfold String.ltb, String.leb. rewrite (String.compare_antisym s t).
  by destruct (String.compare t s).
Qed.

Lemma append_nil (t : string) : "" +:+ t = t.
Proof. reflexivity. Qed.

Lemma append_cons c (s t : string) : String c s +:+ t = String c (s +:+ t).
Proof. reflexivity. Qed.

Lemma append_assoc (s t u : string) : (s +:+ t) +:+ u = s +:+ (t +:+ u).
Proof.
  induction s as [|c s IH]; [done |]. by rewrite !append_cons, IH.
Qed.

Lemma append_length (s t : string) :
  String.length (s +:+ t) = (String.length s + String.length t)%nat.
Proof.
  induction s as [|c s IH]; [done |]. rewrite append_cons. simpl. by rewrite IH.
Qed.

Lemma slice0_append s t : Js.slice0 (String.length s) (s +:+ t) = s.
Proof.
  induction s as [|c s IH]; [by destruct t |].
  rewrite append_cons. simpl. by rewrite IH.
Qed.

(** ** Decimal rendering *)

Lemma code_digit_char d : 0 ≤ d < 10 → Js.code (Js.digit_char d) = 48 + d.
Proof.
  intros Hd.
  assert (d = 0 ∨ d = 1 ∨ d = 2 ∨ d = 3 ∨ d = 4 ∨ d = 5 ∨ d = 6 ∨ d = 7
          ∨ d = 8 ∨ d = 9) as Hc by lia.
  repeat (destruct Hc as [-> | Hc]; [reflexivity |]). by subst.
Qed.

Lemma fixed_digits_app w n acc :
  fixed_digits w n acc = fixed_digits w n "" +:+ acc.
Proof.
  revert n acc. induction w as [|w IH]; intros n acc; simpl; [done |].
  rewrite (IH _ (String _ acc)), (IH _ (String _ "")).
  by rewrite append_assoc.
Qed.

Lemma fixed_digits_length w n acc :
  String.length (fixed_digits w n acc) = (w + String.length acc)%nat.
Proof.
  revert n acc. induction w as [|w IH]; intros n acc; simpl; [done |].
  rewrite IH. simpl. lia.
Qed.

Lemma repeat_fill_zero_rest k : Js.repeat_fill k "0" "0" = Js.repeat_fill k "0" "".
Proof. by destruct k. Qed.

Lemma zeros_snoc k acc :
  Js.repeat_fill k "0" "" +:+ String "0" acc
  = String "0" (Js.repeat_fill k "0" "" +:+ acc).
Proof.
  induction k as [|k IH]; [done |]. simpl Js.repeat_fill.
  by rewrite !append_cons, IH.
Qed.

Lemma fixed_digits_zero k acc :
  fixed_digits k 0 acc = Js.repeat_fill k "0" "" +:+ acc.
Proof.
  revert acc. induction k as [|k IH]; intros acc; [done |].
  change (fixed_digits (S k) 0 acc) with (fixed_digits k 0 (String "0" acc)).
  rewrite IH. apply zeros_snoc.
Qed.

Lemma fixed_digits_pad k d n acc :
  0 ≤ n < 10 ^ Z.of_nat d →
  fixed_digits (k + d) n acc = Js.repeat_fill k "0" "" +:+ fixed_digits d n acc.
Proof.
  revert n acc. induction d as [|d IH]; intros n acc Hn.
  - replace n with 0 by (simpl in Hn; lia).
    rewrite Nat.add_0_r. apply fixed_digits_zero.
  - rewrite Nat.add_succ_r. simpl. apply IH.
    rewrite Nat2Z.inj_succ, Z.pow_succ_r in Hn by lia.
    split; [apply Z.div_pos; lia | apply Z.div_lt_upper_bound; lia].
Qed.

Lemma digits_of_fixed fuel n acc :
  0 ≤ n < 2 ^ Z.of_nat (S fuel) →
  ∃ d, (1 ≤ d)%nat ∧ n < 10 ^ Z.of_nat d
       ∧ Js.digits_of (S fuel) n acc = fixed_digits d n acc
       ∧ (d = 1%nat ∨ 10 ^ (Z.of_nat d - 1) ≤ n).
Proof.
  revert n acc. induction fuel as [|fuel IH]; intros n acc Hn.
  - exists 1%nat. change (2 ^ Z.of_nat 1) with 2 in Hn.
    simpl. destruct (Z.ltb_spec n 10); [|lia]. repeat split; auto; lia.
  - change (Js.digits_of (S (S fuel)) n acc) with
      (let acc' := String (Js.digit_char (n mod 10)) acc in
       if n <? 10 then acc' else Js.digits_of (S fuel) (n / 10) acc').
    simpl. destruct (Z.ltb_spec n 10) as [Hlt | Hge].
    + exists 1%nat. repeat split; auto; simpl; lia.
    + destruct (IH (n / 10) (String (Js.digit_char (n mod 10)) acc))
        as (d & Hd1 & Hd & Heq & Hmin).
      { rewrite (Nat2Z.inj_succ (S fuel)), Z.pow_succ_r in Hn by lia.
        split; [apply Z.div_pos; lia | apply Z.div_lt_upper_bound; lia]. }
      exists (S d). rewrite Nat2Z.inj_succ, Z.pow_succ_r by lia.
      repeat split; [lia | | exact Heq | right].
      * pose proof (Z.mul_div_le n 10). pose proof (Z.mod_pos_bound n 10).
        pose proof (Z.div_mod n 10). lia.
      * replace (Z.succ (Z.of_nat d) - 1) with (Z.succ (Z.of_nat d - 1)) by lia.
        rewrite Z.pow_succ_r by lia.
        pose proof (Z.mul_div_le n 10).
        destruct Hmin as [-> | Hmin]; [simpl; lia | lia].
Qed.

Lemma String_of_number_fixed n :
  0 ≤ n →
  ∃ d, (1 ≤ d)%nat ∧ n < 10 ^ Z.of_nat d
       ∧ Js.String_of_number n = fixed_digits d n "".
Proof.
  intros Hn. unfold Js.String_of_number, Js.digits_fuel.
  destruct (Z.ltb_spec n 0); [lia |].
  destruct (digits_of_fixed (Z.to_nat (Z.log2 n)) n "") as (d & ? & ? & ? & _).
  - split; [done |]. rewrite Nat2Z.inj_succ, Z2Nat.id by apply Z.log2_nonneg.
    destruct (Z.eq_dec n 0) as [-> | ?]; [done |].
    apply Z.log2_spec. lia.
  - by exists d.
Qed.

Lemma padStart_String_of_number w n :
  0 ≤ n → (decimal_digits n ≤ w)%nat →
  n < 10 ^ Z.of_nat w
  ∧ Js.padStart w "0" (Js.String_of_number n) = fixed_digits w n "".
Proof.
  intros Hn Hw. unfold decimal_digits in Hw.
  destruct (String_of_number_fixed n Hn) as (d & Hd1 & Hd & Heq).
  rewrite Heq in *. rewrite fixed_digits_length in Hw. simpl in Hw.
  split.
  - eapply Z.lt_le_trans; [exact Hd |]. apply Z.pow_le_mono_r; lia.
  - unfold Js.padStart. rewrite fixed_digits_length, repeat_fill_zero_rest.
    simpl String.length. rewrite Nat.add_0_r.
    rewrite <- fixed_digits_pad by lia. f_equal. lia.
Qed.

Lemma compare_fixed_digits w a b s t :
  String.compare (fixed_digits w a s) (fixed_digits w b t)
  = match a mod 10 ^ Z.of_nat w ?= b mod 10 ^ Z.of_nat w with
    | Eq => String.compare s t
    | c => c
    end.
Proof.
  revert a b s t. induction w as [|w IH]; intros a b s t.
  - simpl. by rewrite !Z.mod_1_r.
  - simpl fixed_digits. rewrite IH, string_compare_cons.
    rewrite !code_digit_char by (apply Z.mod_pos_bound; lia).
    rewrite Nat2Z.inj_succ, Z.pow_succ_r by lia.
    assert (0 < 10 ^ Z.of_nat w) by (apply Z.pow_pos_nonneg; lia).
    rewrite !(Z.rem_mul_r _ 10) by lia.
    pose proof (Z.mod_pos_bound a 10). pose proof (Z.mod_pos_bound b 10).
    destruct (Z.compare_spec ((a / 10) mod 10 ^ Z.of_nat w)
                             ((b / 10) mod 10 ^ Z.of_nat w)) as [Heq | Hlt | Hgt].
    + rewrite Heq.
      destruct (Z.compare_spec (48 + a mod 10) (48 + b mod 10));
        [rewrite (proj2 (Z.compare_eq_iff _ _)) by lia
        |rewrite (proj2 (Z.compare_lt_iff _ _)) by lia
        |rewrite (proj2 (Z.compare_gt_iff _ _)) by lia]; done.
    + by rewrite (proj2 (Z.compare_lt_iff _ _)) by lia.
    + by rewrite (proj2 (Z.compare_gt_iff _ _)) by lia.
Qed.

Lemma digit_val_digit_char d : 0 ≤ d < 10 → Js.digit_val (Js.digit_char d) = Some d.
Proof.
  intros Hd. unfold Js.digit_val. rewrite code_digit_char by done.
  destruct (Z.leb_spec 48 (48 + d)); [|lia].
  destruct (Z.leb_spec (48 + d) 57); [|lia]. simpl. f_equal. lia.
Qed.

Lemma parse_digits_fixed w n rest a :
  Js.parse_digits (fixed_digits w n rest) (Some a)
  = Js.parse_digits rest (Some (a * 10 ^ Z.of_nat w + n mod 10 ^ Z.of_nat w)).
Proof.
  revert n rest. induction w as [|w IH]; intros n rest.
  - simpl. rewrite Z.mod_1_r. do 2 f_equal. lia.
  - simpl fixed_digits. rewrite IH. simpl Js.parse_digits.
    rewrite digit_val_digit_char by (apply Z.mod_pos_bound; lia).
    rewrite Nat2Z.inj_succ, Z.pow_succ_r by lia.
    assert (0 < 10 ^ Z.of_nat w) by (apply Z.pow_pos_nonneg; lia).
    rewrite (Z.rem_mul_r n 10) by lia. simpl default. do 2 f_equal. lia.
Qed.

Lemma fixed_digits_head w n d rest :
  0 ≤ d < 10 →
  ∃ d' r, 0 ≤ d' < 10
          ∧ fixed_digits w n (String (Js.digit_char d) rest)
            = String (Js.digit_char d') r.
Proof.
  revert n d rest. induction w as [|w IH]; intros n d rest Hd.
  - by exists d, rest.
  - simpl. apply IH, Z.mod_pos_bound. lia.
Qed.

Lemma parseInt_digit_head d r :
  0 ≤ d < 10 →
  Js.parseInt (String (Js.digit_char d) r)
  = Js.parse_digits (String (Js.digit_char d) r) (Some 0).
Proof.
  intros Hd.
  assert (d = 0 ∨ d = 1 ∨ d = 2 ∨ d = 3 ∨ d = 4 ∨ d = 5 ∨ d = 6 ∨ d = 7
          ∨ d = 8 ∨ d = 9) as Hc by lia.
  assert (∀ o : option Z, Z.mul 1 <$> o = o) as Hone.
  { intros [x|]; simpl; [f_equal; lia | done]. }
  repeat (destruct Hc as [-> | Hc]; [apply Hone |]). subst. apply Hone.
Qed.

Lemma parseInt_fixed_digits w n :
  (1 ≤ w)%nat → 0 ≤ n < 10 ^ Z.of_nat w →
  Js.parseInt (fixed_digits w n "") = Some n.
Proof.
  intros Hw Hn. destruct w as [|w]; [lia |].
  simpl fixed_digits.
  destruct (fixed_digits_head w (n / 10) (n mod 10) "") as (d & r & Hd & Heq).
  { apply Z.mod_pos_bound. lia. }
  rewrite Heq, parseInt_digit_head, <- Heq by done.
  change (fixed_digits w (n / 10) (String (Js.digit_char (n mod 10)) ""))
    with (fixed_digits (S w) n "").
  rewrite parse_digits_fixed. simpl Js.parse_digits.
  rewrite Z.mod_small by done. done.
Qed.

(** ** The index key *)

Section IndexKey.
Variable CONFIG : Config.
Let W := TIMESTAMP_PAD_LENGTH CONFIG.

Lemma indexKey_fixed t i :
  0 ≤ t → (decimal_digits t ≤ W)%nat →
  t < 10 ^ Z.of_nat W
  ∧ indexKey CONFIG t i = fixed_digits W t (String "-" i).
Proof.
  intros Ht Hd. destruct (padStart_String_of_number W t Ht Hd) as [Hlt Hpad].
  split; [done |]. unfold indexKey. fold W. rewrite Hpad.
  by rewrite (fixed_digits_app _ _ (String "-" i)).
Qed.

Lemma decimal_digits_pos t : 0 ≤ t → (1 ≤ decimal_digits t)%nat.
Proof.
  intros Ht. unfold decimal_digits.
  destruct (String_of_number_fixed t Ht) as (d & Hd & _ & ->).
  rewrite fixed_digits_length. lia.
Qed.

Lemma indexKey_compare t1 i1 t2 i2 :
  0 ≤ t1 → (decimal_digits t1 ≤ W)%nat →
  0 ≤ t2 → (decimal_digits t2 ≤ W)%nat →
  String.compare (indexKey CONFIG t1 i1) (indexKey CONFIG t2 i2)
  = match t1 ?= t2 with Eq => String.compare i1 i2 | c => c end.
Proof.
  intros H1 D1 H2 D2.
  destruct (indexKey_fixed t1 i1 H1 D1) as [L1 ->].
  destruct (indexKey_fixed t2 i2 H2 D2) as [L2 ->].
  rewrite compare_fixed_digits, !Z.mod_small by lia.
  rewrite string_compare_cons, Z.compare_refl. done.
Qed.

Lemma indexKey_parse t i :
  0 ≤ t → (decimal_digits t ≤ W)%nat →
  Js.parseInt (Js.slice0 W (indexKey CONFIG t i)) = Some t.
Proof.
  intros Ht Hd. pose proof (decimal_digits_pos t Ht).
  destruct (indexKey_fixed t i Ht Hd) as [Hlt ->].
  rewrite fixed_digits_app.
  replace W with (String.length (fixed_digits W t "")) at 1
    by (rewrite fixed_digits_length; simpl; lia).
  rewrite slice0_append. apply parseInt_fixed_digits; lia.
Qed.
End IndexKey.

(** ** Range scans *)

Section TableFacts.
Context {V : Type}.
Implicit Types m : gmap string V.

#[local] Instance key_le_total : Total (@key_le V).
Proof. intros a b. apply String.leb_total. Qed.

#[local] Instance key_le_trans : Transitive (@key_le V).
Proof. intros a b c. apply string_leb_trans. Qed.

Lemma elem_of_getRange start m k v :
  (k, v) ∈ getRange start m ↔ m !! k = Some v ∧ from_start start k = true.
Proof.
  unfold getRange. rewrite merge_sort_Permutation, list_elem_of_filter.
  rewrite elem_of_map_to_list. simpl. tauto.
Qed.

Lemma getRange_sorted start m : StronglySorted key_le (getRange start m).
Proof. apply StronglySorted_merge_sort; apply _. Qed.

Lemma getRange_limit1_nil m : getRange_limit1 m = [] ↔ m = ∅.
Proof.
  unfold getRange_limit1. split.
  - intros Hnil. apply map_empty. intros k.
    destruct (m !! k) as [v|] eqn:Hk; [exfalso | done].
    assert ((k, v) ∈ getRange None m) as Hin by by apply elem_of_getRange.
    destruct (getRange None m); [by apply not_elem_of_nil in Hin | done].
  - intros ->. destruct (getRange None (∅ : gmap string V)) as [|[k v] l] eqn:E;
      [done | exfalso].
    assert ((k, v) ∈ getRange None (∅ : gmap string V)) as Hin
      by (rewrite E; left).
    apply elem_of_getRange in Hin as [Hin _]. by rewrite lookup_empty in Hin.
Qed.

Lemma getRange_limit1_cons m key value rest :
  getRange_limit1 m = (key, value) :: rest →
  rest = [] ∧ m !! key = Some value
  ∧ ∀ k, is_Some (m !! k) → String.leb key k = true.
Proof.
  unfold getRange_limit1. intros Hhd.
  pose proof (getRange_sorted None m) as Hsorted.
  destruct (getRange None m) as [|[k0 v0] l] eqn:E; [done |].
  simpl in Hhd. rewrite take_0 in Hhd. inversion Hhd; subst.
  split; [done |].
  assert (∀ k v, m !! k = Some v ↔ (k, v) ∈ (key, value) :: l) as Hin.
  { intros k v. rewrite <- E, elem_of_getRange. simpl. tauto. }
  split; [apply Hin; left |].
  intros k [v Hk]. apply Hin in Hk. apply StronglySorted_inv in Hsorted as [_ Hall].
  apply elem_of_cons in Hk as [Heq | Hk].
  - inversion Heq; subst. unfold String.leb. by rewrite string_compare_refl.
  - rewrite Forall_forall in Hall. exact (Hall _ Hk).
Qed.
End TableFacts.

(** ** C5: the order of index keys *)

(** C5.  For time stamps [t1], [t2] that are non-negative and have at most
    [TIMESTAMP_PAD_LENGTH] decimal digits, and any two job ids, the key of
    [(t1, i1)] is below the key of [(t2, i2)] in string order exactly when
    [t1 < t2], or [t1 = t2] and [i1] is below [i2] in string order.  Hence
    the entry that [getRange({ limit: 1 })] yields, the least key, is the
    one whose pair [(availableAt, id)] is least: no key of the index encodes
    a pair below it. *)
Theorem indexKey_order CONFIG (t1 t2 : Z) (i1 i2 : string) :
  0 ≤ t1 → (decimal_digits t1 ≤ TIMESTAMP_PAD_LENGTH CONFIG)%nat →
  0 ≤ t2 → (decimal_digits t2 ≤ TIMESTAMP_PAD_LENGTH CONFIG)%nat →
  (String.ltb (indexKey CONFIG t1 i1) (indexKey CONFIG t2 i2) = true
   ↔ entry_lt (t1, i1) (t2, i2))
  ∧ ∀ (index : gmap string string) value rest,
      getRange_limit1 index = (indexKey CONFIG t1 i1, value) :: rest →
      is_Some (index !! indexKey CONFIG t2 i2) →
      ¬ entry_lt (t2, i2) (t1, i1).
Proof.
  intros H1 D1 H2 D2.
  assert (∀ a ia b ib,
    0 ≤ a → (decimal_digits a ≤ TIMESTAMP_PAD_LENGTH CONFIG)%nat →
    0 ≤ b → (decimal_digits b ≤ TIMESTAMP_PAD_LENGTH CONFIG)%nat →
    String.ltb (indexKey CONFIG a ia) (indexKey CONFIG b ib) = true
    ↔ entry_lt (a, ia) (b, ib)) as Hiff.
  { intros a ia b ib Ha Da Hb Db. unfold String.ltb, entry_lt. simpl.
    rewrite indexKey_compare by done.
    destruct (Z.compare_spec a b); split; try done; try lia; try tauto.
    intros [? | [_ ?]]; [lia | done]. }
  split; [by apply Hiff |].
  intros index value rest Hhead Hin Hlt.
  apply getRange_limit1_cons in Hhead as (_ & _ & Hmin).
  apply Hiff in Hlt; [| done ..].
  apply string_ltb_leb in Hlt. rewrite (Hmin _ Hin) in Hlt. done.
Qed.

Lemma indexKey_order_witness :
  (String.ltb (indexKey default_config 999 "b") (indexKey default_config 1000 "a") = true
   ↔ entry_lt (999, "b") (1000, "a"))
  ∧ ∀ (index : gmap string string) value rest,
      getRange_limit1 index = (indexKey default_config 999 "b", value) :: rest →
      is_Some (index !! indexKey default_config 1000 "a") →
      ¬ entry_lt (1000, "a") (999, "b").
Proof.
  apply (indexKey_order default_config 999 1000 "b" "a");
    vm_compute; first [lia | discriminate | reflexivity].
Defined.

(** ** The queue *)

Section QueueFacts.
Variable CONFIG : Config.

Lemma claimJob_empty now q :
  queueIndex q = ∅ → claimJob CONFIG now q = (None, q).
Proof.
  intros Hq. unfold claimJob.
  by rewrite (proj2 (getRange_limit1_nil (queueIndex q)) Hq).
Qed.

Lemma claimJob_head now q key value rest :
  getRange_limit1 (queueIndex q) = (key, value) :: rest →
  claimJob CONFIG now q = claim_entry CONFIG now key value q.
Proof. intros Hhd. unfold claimJob. by rewrite Hhd. Qed.

Lemma claimJob_Some now q job q' :
  claimJob CONFIG now q = (Some job, q') →
  ∃ key value stored,
    getRange_limit1 (queueIndex q) = [(key, value)]
    ∧ Js.gt (Js.parseInt (Js.slice0 (TIMESTAMP_PAD_LENGTH CONFIG) key)) now = false
    ∧ jobs q !! value = Some stored
    ∧ job = {| id := id stored; name := name stored;
               createdAt := createdAt stored;
               availableForProcessingAt := availableForProcessingAt stored;
               retryCount := retryCount stored; status := processing;
               body := body stored |}
    ∧ q' = {| jobs := <[id stored := job]> (jobs q);
              queueIndex := delete key (queueIndex q) |}.
Proof.
  unfold claimJob.
  destruct (getRange_limit1 (queueIndex q)) as [|[key value] rest] eqn:Hhd;
    [done |].
  destruct (getRange_limit1_cons _ _ _ _ Hhd) as (-> & _ & _).
  unfold claim_entry.
  destruct (Js.gt _ now) eqn:Hgt; [done |].
  destruct (jobs q !! value) as [stored|] eqn:Hjob; [| done].
  intros [= <- <-]. by exists key, value, stored.
Qed.
End QueueFacts.

(** C1, as the code has it.  When the index is empty, or the time stamp
    parsed from the least index key is greater than the current time,
    [claimJob] returns nothing and leaves the queue as it is.  A job that
    [claimJob] returns was reached through the least index entry, whose
    parsed time stamp is not greater than the current time; when that key
    is the index key of the returned record's own [availableForProcessingAt]
    (a non-negative integer of at most [TIMESTAMP_PAD_LENGTH] digits), that
    [availableForProcessingAt] is at most the current time. *)
Theorem claimJob_eligibility CONFIG (now : Z) (q : Queue) :
  (queueIndex q = ∅ → claimJob CONFIG now q = (None, q))
  ∧ (∀ key value rest,
       getRange_limit1 (queueIndex q) = (key, value) :: rest →
       Js.gt (Js.parseInt (Js.slice0 (TIMESTAMP_PAD_LENGTH CONFIG) key)) now = true →
       claimJob CONFIG now q = (None, q))
  ∧ (∀ job q',
       claimJob CONFIG now q = (Some job, q') →
       ∃ key value,
         getRange_limit1 (queueIndex q) = [(key, value)]
         ∧ Js.gt (Js.parseInt (Js.slice0 (TIMESTAMP_PAD_LENGTH CONFIG) key)) now = false
         ∧ (0 ≤ availableForProcessingAt job →
            (decimal_digits (availableForProcessingAt job)
             ≤ TIMESTAMP_PAD_LENGTH CONFIG)%nat →
            key = indexKey CONFIG (availableForProcessingAt job) value →
            availableForProcessingAt job ≤ now)).
Proof.
  split; [apply claimJob_empty | split].
  - intros key value rest Hhd Hgt.
    rewrite (claimJob_head _ _ _ _ _ _ Hhd). unfold claim_entry. by rewrite Hgt.
  - intros job q' Hclaim.
    apply claimJob_Some in Hclaim as (key & value & stored & Hhd & Hgt & _ & _ & _).
    exists key, value. split; [done |]. split; [done |].
    intros Hnn Hdigits ->. rewrite indexKey_parse in Hgt by done.
    simpl in Hgt. by apply Z.ltb_ge in Hgt.
Qed.

Lemma claimJob_eligibility_witness :
  let q := (submitJob default_config 10 "Brown Pelican" empty_queue).2 in
  ∃ job q', claimJob default_config 11 q = (Some job, q')
            ∧ availableForProcessingAt job ≤ 11.
Proof.
  intros q.
  destruct (claimJob default_config 11 q) as [[job|] q'] eqn:Hclaim;
    [| by vm_compute in Hclaim].
  exists job, q'. split; [done |].
  destruct (claimJob_eligibility default_config 11 q) as (_ & _ & Hret).
  destruct (Hret job q' Hclaim) as (key & value & Hhd & _ & Hle).
  vm_compute in Hclaim. injection Hclaim as <- <-.
  vm_compute in Hhd. injection Hhd as <- <-.
  apply Hle; vm_compute; first [discriminate | lia | reflexivity].
Defined.

(** The statement of C1 as written fails: after [retryJob] on a job that
    was never claimed, the index still holds the job's old key, and
    [claimJob] hands the job out although its [availableForProcessingAt]
    lies in the future. *)
Lemma claimJob_future_job :
  ¬ (∀ now q job q',
       claimJob default_config now q = (Some job, q') →
       availableForProcessingAt job ≤ now).
Proof.
  intros Hclaim.
  pose (q := (retryJob default_config "a" 1000
                (submitJob default_config 10 "a" empty_queue).2).2).
  specialize (Hclaim 11 q
    {| id := "a"; name := "a"; createdAt := 10;
       availableForProcessingAt := 1000; retryCount := 1;
       status := processing; body := ∅ |}
    (claimJob default_config 11 q).2).
  assert (1000 ≤ 11) as Hle by (apply Hclaim; by vm_compute).
  lia.
Qed.

(** C6.  When the least index entry is eligible (its parsed time stamp is
    not greater than the current time) and the job it names is missing,
    [claimJob] returns nothing, removes that index entry and changes
    nothing else: the jobs table is the same and every other index entry
    is kept. *)
Theorem claimJob_orphan CONFIG (now : Z) (q : Queue) key value rest :
  getRange_limit1 (queueIndex q) = (key, value) :: rest →
  Js.gt (Js.parseInt (Js.slice0 (TIMESTAMP_PAD_LENGTH CONFIG) key)) now = false →
  jobs q !! value = None →
  ∃ q', claimJob CONFIG now q = (None, q')
        ∧ jobs q' = jobs q
        ∧ queueIndex q !! key = Some value
        ∧ queueIndex q' !! key = None
        ∧ (∀ k, k ≠ key → queueIndex q' !! k = queueIndex q !! k)
        ∧ queueIndex q' = delete key (queueIndex q).
Proof.
  intros Hhd Hgt Hmissing.
  exists {| jobs := jobs q; queueIndex := delete key (queueIndex q) |}.
  rewrite (claimJob_head _ _ _ _ _ _ Hhd). unfold claim_entry.
  rewrite Hgt, Hmissing. simpl.
  destruct (getRange_limit1_cons _ _ _ _ Hhd) as (_ & Hin & _).
  repeat split; [done | apply lookup_delete_eq |].
  intros k Hk. by apply lookup_delete_ne.
Qed.

Lemma claimJob_orphan_witness :
  let q := {| jobs := ∅;
              queueIndex := {[ "0000000000010-ghost" := "ghost" ]} |} in
  ∃ q', claimJob default_config 11 q = (None, q')
        ∧ jobs q' = jobs q
        ∧ queueIndex q !! "0000000000010-ghost" = Some "ghost"
        ∧ queueIndex q' !! "0000000000010-ghost" = None
        ∧ (∀ k, k ≠ "0000000000010-ghost" → queueIndex q' !! k = queueIndex q !! k)
        ∧ queueIndex q' = delete "0000000000010-ghost" (queueIndex q).
Proof.
  intros q.
  apply (claimJob_orphan default_config 11 q "0000000000010-ghost" "ghost" []);
    by vm_compute.
Defined.

(** C2.  When a record with id [toJobId n] exists and its status is not
    [failed], [submitJob] returns that very record with [isDuplicate = true]
    and the queue (jobs table and index) is unchanged. *)
Theorem submitJob_duplicate CONFIG (now : Z) (n : string) (q : Queue) existing :
  jobs q !! toJobId n = Some existing →
  status existing ≠ failed →
  submitJob CONFIG now n q = ((existing, true), q).
Proof.
  intros Hex Hst. unfold submitJob. rewrite Hex.
  by destruct (decide (status existing = failed)).
Qed.

Lemma submitJob_duplicate_witness :
  let q := (submitJob default_config 10 "Brown Pelican" empty_queue).2 in
  ∃ existing,
    jobs q !! "brown-pelican" = Some existing
    ∧ submitJob default_config 20 "brown   PELICAN" q = ((existing, true), q).
Proof.
  intros q.
  exists {| id := "brown-pelican"; name := "Brown Pelican"; createdAt := 10;
            availableForProcessingAt := 10; retryCount := 0; status := queued;
            body := ∅ |}.
  split; [by vm_compute |].
  apply (submitJob_duplicate default_config 20 "brown   PELICAN" q);
    [by vm_compute | discriminate].
Defined.

(** C3.  When the record with id [toJobId n] exists with status [failed],
    [submitJob] returns [isDuplicate = false] and a record with
    [createdAt = availableForProcessingAt = now], [retryCount = 0], status
    [queued] and an empty body (id and name are those of the old record);
    in one transition that record is written under the id and the index
    entry for [(now, id)] is inserted. *)
Theorem submitJob_reset CONFIG (now : Z) (n : string) (q : Queue) existing :
  jobs q !! toJobId n = Some existing →
  status existing = failed →
  ∃ job,
    submitJob CONFIG now n q
    = ((job, false),
       {| jobs := <[toJobId n := job]> (jobs q);
          queueIndex :=
            <[indexKey CONFIG now (toJobId n) := toJobId n]> (queueIndex q) |})
    ∧ createdAt job = now
    ∧ availableForProcessingAt job = now
    ∧ retryCount job = 0
    ∧ status job = queued
    ∧ body job = ∅
    ∧ id job = id existing
    ∧ name job = name existing.
Proof.
  intros Hex Hst. unfold submitJob. rewrite Hex.
  destruct (decide (status existing = failed)); [| done].
  eexists. split; [reflexivity |]. by simpl.
Qed.

Lemma submitJob_reset_witness :
  let q := (failJob "a" (submitJob default_config 10 "A" empty_queue).2).2 in
  ∃ job,
    submitJob default_config 20 "A" q
    = ((job, false),
       {| jobs := <["a" := job]> (jobs q);
          queueIndex := <["0000000000020-a" := "a"]> (queueIndex q) |})
    ∧ createdAt job = 20
    ∧ availableForProcessingAt job = 20
    ∧ retryCount job = 0
    ∧ status job = queued
    ∧ body job = ∅.
Proof.
  intros q.
  destruct (submitJob_reset default_config 20 "A" q
              {| id := "a"; name := "A"; createdAt := 10;
                 availableForProcessingAt := 10; retryCount := 0;
                 status := failed; body := ∅ |})
    as (job & Heq & ? & ? & ? & ? & ? & _); [by vm_compute | done |].
  exists job. by repeat split.
Defined.

(** C10.  For an existing record, whatever its status, [completeJob]
    writes a record that differs from the old one at most in [status]
    (now [completed]) and [body] (now the given one), [failJob] one that
    differs at most in [status] (now [failed]); both leave every other job
    and the whole index as they were, so an index entry of a job that was
    still [queued] stays in place. *)
Theorem completeJob_failJob_frame (jobId : string) (body' : Body) (q : Queue) job :
  jobs q !! jobId = Some job →
  (∃ updated,
     completeJob jobId body' q
     = (Some updated,
        {| jobs := <[jobId := updated]> (jobs q); queueIndex := queueIndex q |})
     ∧ status updated = completed ∧ body updated = body'
     ∧ id updated = id job ∧ name updated = name job
     ∧ createdAt updated = createdAt job
     ∧ availableForProcessingAt updated = availableForProcessingAt job
     ∧ retryCount updated = retryCount job)
  ∧ (∃ updated,
       failJob jobId q
       = (Some updated,
          {| jobs := <[jobId := updated]> (jobs q); queueIndex := queueIndex q |})
       ∧ status updated = failed ∧ body updated = body job
       ∧ id updated = id job ∧ name updated = name job
       ∧ createdAt updated = createdAt job
       ∧ availableForProcessingAt updated = availableForProcessingAt job
       ∧ retryCount updated = retryCount job)
  ∧ (∀ k, queueIndex (completeJob jobId body' q).2 !! k = queueIndex q !! k)
  ∧ (∀ k, queueIndex (failJob jobId q).2 !! k = queueIndex q !! k)
  ∧ (∀ k, k ≠ jobId → jobs (completeJob jobId body' q).2 !! k = jobs q !! k)
  ∧ (∀ k, k ≠ jobId → jobs (failJob jobId q).2 !! k = jobs q !! k).
Proof.
  intros Hjob. unfold completeJob, failJob. rewrite Hjob. simpl.
  split; [eexists; split; [reflexivity | by simpl] |].
  split; [eexists; split; [reflexivity | by simpl] |].
  repeat split; try done; intros k Hk; by apply lookup_insert_ne.
Qed.

Lemma completeJob_failJob_frame_witness :
  let q := (submitJob default_config 10 "A" empty_queue).2 in
  queueIndex (completeJob "a" {[ "research" := "x" ]} q).2 !! "0000000000010-a"
  = Some "a"
  ∧ queueIndex (failJob "a" q).2 !! "0000000000010-a" = Some "a".
Proof.
  intros q.
  destruct (completeJob_failJob_frame "a" {[ "research" := "x" ]} q
              {| id := "a"; name := "A"; createdAt := 10;
                 availableForProcessingAt := 10; retryCount := 0;
                 status := queued; body := ∅ |})
    as (_ & _ & Hc & Hf & _); [by vm_compute |].
  split; [etrans; [apply Hc |] | etrans; [apply Hf |]]; by vm_compute.
Defined.

(** ** The observer *)

Section ObserverFacts.
Import Observer.

Lemma count_action_cons a kv l :
  count_action a (kv :: l)
  = (if decide (action kv.2 = a) then 1 else 0) + count_action a l.
Proof.
  unfold count_action. rewrite filter_cons.
  destruct (decide (action kv.2 = a)); simpl length; lia.
Qed.

Lemma scan_counts l acc :
  let acc' := fold_left scan_entry l acc in
  n_submitted acc' = n_submitted acc + count_action JOB_SUBMITTED l
  ∧ n_completed acc' = n_completed acc + count_action JOB_COMPLETED l
  ∧ n_failed acc' = n_failed acc + count_action JOB_FAILED l.
Proof.
  revert acc. induction l as [|kv l IH]; intros acc; simpl.
  - unfold count_action. simpl. lia.
  - destruct (IH (scan_entry acc kv)) as (Hs & Hc & Hf).
    rewrite Hs, Hc, Hf, !count_action_cons. unfold scan_entry.
    destruct (action kv.2); simpl; repeat case_decide; try done; lia.
Qed.
End ObserverFacts.

(** *** The scan of [getMetrics] and the window of time stamps *)

Lemma timeKey_fixed CONFIG t :
  in_range CONFIG t →
  Observer.timeKey CONFIG t = fixed_digits (TIMESTAMP_PAD_LENGTH CONFIG) t "".
Proof.
  intros [Ht Hd]. unfold Observer.timeKey.
  by destruct (padStart_String_of_number _ t Ht Hd) as [_ ->].
Qed.

Lemma fixed_digits_split a b n acc :
  fixed_digits (a + b) n acc
  = fixed_digits a (n / 10 ^ Z.of_nat b) (fixed_digits b n acc).
Proof.
  revert n acc. induction b as [|b IH]; intros n acc.
  - rewrite Nat.add_0_r. simpl. by rewrite Z.div_1_r.
  - rewrite Nat.add_succ_r. simpl fixed_digits. rewrite IH.
    rewrite Nat2Z.inj_succ, Z.pow_succ_r by lia.
    assert (0 < 10 ^ Z.of_nat b) by (apply Z.pow_pos_nonneg; lia).
    by rewrite Z.div_div by lia.
Qed.

Lemma minus_below_digits ds b n rest :
  String.leb (String "-" ds) (fixed_digits (S b) n rest) = true.
Proof.
  simpl fixed_digits.
  destruct (fixed_digits_head b (n / 10) (n mod 10) rest) as (d & r & Hd & ->).
  { apply Z.mod_pos_bound. lia. }
  unfold String.leb. rewrite string_compare_cons, code_digit_char by done.
  change (Js.code "-") with 45.
  by rewrite (proj2 (Z.compare_lt_iff _ _)) by lia.
Qed.

Lemma timeKey_negative_below CONFIG start t rest :
  start < 0 → in_range CONFIG t →
  String.leb (Observer.timeKey CONFIG start)
    (fixed_digits (TIMESTAMP_PAD_LENGTH CONFIG) t rest) = true.
Proof.
  intros Hneg [Ht Hd]. pose proof (decimal_digits_pos CONFIG t Ht) as Hpos.
  unfold Observer.timeKey, Js.String_of_number.
  rewrite (proj2 (Z.ltb_lt _ _) Hneg).
  set (ds := Js.digits_of _ _ _). unfold Js.padStart.
  rewrite repeat_fill_zero_rest.
  set (k := (TIMESTAMP_PAD_LENGTH CONFIG - String.length (String "-" ds))%nat).
  assert (∃ b, TIMESTAMP_PAD_LENGTH CONFIG = (k + S b)%nat) as [b ->].
  { exists (TIMESTAMP_PAD_LENGTH CONFIG - k - 1)%nat. subst k. simpl. lia. }
  rewrite <- fixed_digits_zero, fixed_digits_split.
  unfold String.leb. rewrite compare_fixed_digits.
  assert (0 < 10 ^ Z.of_nat k) by (apply Z.pow_pos_nonneg; lia).
  rewrite Z.mod_0_l by lia.
  pose proof (Z.mod_pos_bound (t / 10 ^ Z.of_nat (S b)) (10 ^ Z.of_nat k)).
  destruct (Z.compare_spec 0 ((t / 10 ^ Z.of_nat (S b)) mod 10 ^ Z.of_nat k));
    [| done | lia].
  apply minus_below_digits.
Qed.

Lemma from_start_timeKey CONFIG start t uuid :
  start < 0 ∨ in_range CONFIG start → in_range CONFIG t →
  from_start (Some (Observer.timeKey CONFIG start))
    (Observer.timeKey CONFIG t +:+ "-" +:+ uuid)
  = (start <=? t).
Proof.
  intros Hs Ht. simpl. rewrite (timeKey_fixed CONFIG t Ht).
  rewrite <- (fixed_digits_app _ _ ("-" +:+ uuid)).
  destruct Hs as [Hneg | Hs].
  - rewrite timeKey_negative_below by done. destruct Ht as [Ht _].
    symmetry. apply Z.leb_le. lia.
  - rewrite (timeKey_fixed CONFIG start Hs).
    destruct Hs as [Hs Hsd], Ht as [Ht Htd].
    destruct (padStart_String_of_number _ start Hs Hsd) as [Hs' _].
    destruct (padStart_String_of_number _ t Ht Htd) as [Ht' _].
    unfold String.leb. rewrite compare_fixed_digits, !Z.mod_small by lia.
    destruct (Z.compare_spec start t); destruct (Z.leb_spec start t);
      try done; lia.
Qed.

Lemma filter_window CONFIG a now windowMs (l : list (string * Observer.LogAction)) :
  now - windowMs < 0 ∨ in_range CONFIG (now - windowMs) →
  (∀ k e, (k, e) ∈ l →
     in_range CONFIG (Observer.timestamp e)
     ∧ k = Observer.timeKey CONFIG (Observer.timestamp e)
           +:+ "-" +:+ Observer.id e) →
  filter (λ kv, Observer.action kv.2 = a)
    (filter (λ kv, from_start
                     (Some (Observer.timeKey CONFIG (now - windowMs))) kv.1
                   = true) l)
  = filter (λ kv, Observer.action kv.2 = a ∧ in_window now windowMs kv.2) l.
Proof.
  intros Hstart. induction l as [|[k e] l IH]; intros Hkeyed; [done |].
  destruct (Hkeyed k e) as [Ht Hk]; [left |].
  assert (from_start (Some (Observer.timeKey CONFIG (now - windowMs))) k
          = (now - windowMs <=? Observer.timestamp e)) as Hfrom
    by (rewrite Hk; by apply from_start_timeKey).
  specialize (IH (λ k' e' Hin, Hkeyed k' e' (list_elem_of_further _ _ _ Hin))).
  destruct (Z.leb_spec (now - windowMs) (Observer.timestamp e)) as [Hle | Hlt].
  - rewrite (filter_cons_True (λ kv, from_start _ kv.1 = true)) by done.
    destruct (decide (Observer.action e = a)) as [Ha | Ha].
    + rewrite (filter_cons_True (λ kv, Observer.action kv.2 = a)) by done.
      rewrite (filter_cons_True (λ kv, _ ∧ _)) by done.
      by rewrite IH.
    + rewrite (filter_cons_False (λ kv, Observer.action kv.2 = a)) by done.
      rewrite (filter_cons_False (λ kv, _ ∧ _)) by (cbn [snd]; tauto).
      by rewrite IH.
  - rewrite (filter_cons_False (λ kv, from_start _ kv.1 = true))
      by (cbn [fst]; by rewrite Hfrom).
    rewrite (filter_cons_False (λ kv, _ ∧ _))
      by (unfold in_window; cbn [snd]; lia).
    by rewrite IH.
Qed.

Lemma count_scanned CONFIG a now windowMs db :
  log_keyed CONFIG db →
  now - windowMs < 0 ∨ in_range CONFIG (now - windowMs) →
  count_action a (Observer.scanned CONFIG now windowMs db)
  = window_count a now windowMs db.
Proof.
  intros Hkeyed Hstart. unfold count_action, window_count, Observer.scanned.
  f_equal. unfold getRange. rewrite merge_sort_Permutation.
  rewrite (filter_window CONFIG a now windowMs _ Hstart).
  - rewrite map_filter_alt, map_size_list_to_map; [done |].
    apply (sublist_NoDup _ ((map_to_list db).*1));
      [apply NoDup_fst_map_to_list | apply fmap_sublist, sublist_filter].
  - intros k e Hin%elem_of_map_to_list. by apply Hkeyed.
Qed.

Lemma log_keyed_empty CONFIG : log_keyed CONFIG ∅.
Proof. intros k e Hk. by rewrite lookup_empty in Hk. Qed.

Lemma log_keyed_log CONFIG now uuid action' type' body' db :
  in_range CONFIG now → log_keyed CONFIG db →
  log_keyed CONFIG (Observer.log CONFIG now uuid action' type' body' db).
Proof.
  intros Hnow Hkeyed k e. unfold Observer.log.
  intros [[<- <-] | [_ Hk]]%lookup_insert_Some; [done | by apply Hkeyed].
Qed.

Lemma logged_keyed CONFIG db : logged CONFIG db → log_keyed CONFIG db.
Proof.
  induction 1; [apply log_keyed_empty | by apply log_keyed_log].
Qed.

(** C7.  Take an event log written by [Observer.log] (time stamps in
    range) and a window whose start [now - windowMs] is negative or in
    range.  Let the window, that is the events of the log with
    [timestamp ≥ now - windowMs], hold exactly [c] [job-completed], [f]
    [job-failed] and [s] [job-submitted] events.  Then [getMetrics] returns
    [completed = c], [failed = f], [submitted = s], and [failureRate] is [0]
    when [c + f = 0] and the fraction [f / (c + f)] otherwise: the number of
    submitted events takes no part in it. *)
Theorem getMetrics_failureRate CONFIG (now : Z) (windowMs' : option Z)
  (db : gmap string Observer.LogAction) (s c f : Z) :
  let windowMs := default (DEFAULT_METRICS_WINDOW_MS CONFIG) windowMs' in
  logged CONFIG db →
  now - windowMs < 0 ∨ in_range CONFIG (now - windowMs) →
  window_count JOB_SUBMITTED now windowMs db = s →
  window_count JOB_COMPLETED now windowMs db = c →
  window_count JOB_FAILED now windowMs db = f →
  let m := Observer.getMetrics CONFIG now windowMs' db in
  Observer.submitted m = s
  ∧ Observer.completed m = c
  ∧ Observer.failed m = f
  ∧ (c + f = 0 → Observer.failureRate m = 0%Q)
  ∧ (c + f ≠ 0 →
     Observer.failureRate m = (inject_Z f / inject_Z (c + f))%Q).
Proof.
  intros windowMs Hkeyed%logged_keyed Hstart Hs Hc Hf m. subst m.
  unfold Observer.getMetrics. fold windowMs.
  destruct (scan_counts (Observer.scanned CONFIG now windowMs db)
              Observer.scan_start) as (Hs' & Hc' & Hf').
  rewrite !count_scanned in Hs', Hc', Hf' by done.
  cbn [Observer.n_submitted Observer.n_completed Observer.n_failed
       Observer.scan_start] in Hs', Hc', Hf'.
  rewrite Hs in Hs'. rewrite Hc in Hc'. rewrite Hf in Hf'.
  cbv zeta. cbn [Observer.submitted Observer.completed Observer.failed
                 Observer.failureRate].
  rewrite Hs', Hc', Hf', !Z.add_0_l.
  split; [done |]. split; [done |]. split; [done |]. split.
  - intros H0. by rewrite (proj2 (Z.eqb_eq _ _) H0).
  - intros Hne. by rewrite (proj2 (Z.eqb_neq _ _) Hne).
Qed.

Lemma getMetrics_failureRate_witness :
  let db :=
    Observer.log default_config 1000000 "u5" JOB_FAILED error {[ "jobId" := "c" ]}
      (Observer.log default_config 999990 "u4" JOB_COMPLETED log_
         {[ "jobId" := "a" ]}
         (Observer.log default_config 999950 "u3" JOB_COMPLETED log_
            {[ "jobId" := "b" ]}
            (Observer.log default_config 999940 "u2" JOB_SUBMITTED log_
               {[ "jobId" := "c" ]}
               (Observer.log default_config 5 "u1" JOB_FAILED error
                  {[ "jobId" := "d" ]} ∅)))) in
  let m := Observer.getMetrics default_config 1000001 (Some 100) db in
  Observer.submitted m = 1 ∧ Observer.completed m = 2 ∧ Observer.failed m = 1
  ∧ Observer.failureRate m = (inject_Z 1 / inject_Z 3)%Q.
Proof.
  intros db m.
  assert (∀ t, 0 ≤ t → t < 10000000000000 → in_range default_config t) as Hr.
  { intros t H0 H1. split; [done |].
    destruct (String_of_number_fixed t H0) as (d & Hd1 & Hd & Heq).
    unfold decimal_digits. rewrite Heq, fixed_digits_length. simpl.
    destruct (le_gt_dec d 13) as [? | Hgt]; [lia | exfalso].
    destruct (digits_of_fixed (Z.to_nat (Z.log2 t)) t "")
      as (d' & _ & _ & Heq' & Hmin).
    - split; [done |]. rewrite Nat2Z.inj_succ, Z2Nat.id by apply Z.log2_nonneg.
      destruct (Z.eq_dec t 0) as [-> | ?]; [done |]. apply Z.log2_spec. lia.
    - assert (d' = d) as ->.
      { apply (f_equal String.length) in Heq'.
        unfold Js.String_of_number, Js.digits_fuel in Heq.
        destruct (Z.ltb_spec t 0); [lia |]. rewrite Heq in Heq'.
        rewrite !fixed_digits_length in Heq'. simpl in Heq'. lia. }
      destruct Hmin as [-> | Hmin]; [lia |].
      assert (10 ^ 13 ≤ 10 ^ (Z.of_nat d - 1))
        by (apply Z.pow_le_mono_r; lia).
      change (10 ^ 13) with 10000000000000 in *. lia. }
  assert (logged default_config db) as Hkeyed.
  { subst db. repeat (apply logged_log; [apply Hr; lia |]).
    apply logged_empty. }
  destruct (getMetrics_failureRate default_config 1000001 (Some 100) db 1 2 1
              Hkeyed) as (Hs & Hc & Hf & _ & Hrate).
  - right. apply Hr; simpl; lia.
  - vm_compute. reflexivity.
  - vm_compute. reflexivity.
  - vm_compute. reflexivity.
  - split; [exact Hs |]. split; [exact Hc |]. split; [exact Hf |].
    apply Hrate. lia.
Defined.

(** ** The admission surface *)

Lemma key_bytes_app (s t : string) :
  key_bytes (s +:+ t) = (key_bytes s + key_bytes t)%nat.
Proof.
  induction s as [|c s IH]; [by rewrite append_nil |].
  rewrite append_cons. cbn [key_bytes]. rewrite IH. lia.
Qed.

Lemma key_fits_indexKey CONFIG maxKeySize now jobId :
  key_fits maxKeySize (indexKey CONFIG now jobId) = true →
  key_fits maxKeySize jobId = true.
Proof.
  unfold key_fits, indexKey. rewrite !key_bytes_app.
  intros H%Nat.leb_le. apply Nat.leb_le. lia.
Qed.

Lemma submitJob_returns CONFIG maxKeySize now request_name q :
  key_fits maxKeySize (indexKey CONFIG now (toJobId request_name)) = true →
  submitJob_throws CONFIG maxKeySize now request_name q = false.
Proof.
  intros Hfits. unfold submitJob_throws. cbv zeta.
  rewrite Hfits, (key_fits_indexKey _ _ _ _ Hfits). cbn [andb negb].
  destruct (jobs q !! toJobId request_name) as [existing |]; [| done].
  by destruct (decide (status existing = failed)).
Qed.

Lemma submitJob_refused CONFIG maxKeySize now request_name q :
  key_fits maxKeySize (indexKey CONFIG now (toJobId request_name)) = false →
  (submitJob CONFIG now request_name q).1.2 = false →
  submitJob_throws CONFIG maxKeySize now request_name q = true.
Proof.
  intros Hfits. unfold submitJob_throws, submitJob. cbv zeta.
  rewrite Hfits, andb_false_r. cbn [negb].
  destruct (jobs q !! toJobId request_name) as [existing |]; [| done].
  by destruct (decide (status existing = failed)).
Qed.

(** C8, as the code has it.  When the [name] field is missing, is not a
    string, or is the empty string, the response has status 400 and
    neither the queue nor the event log is touched by the handler.  When
    [name] is a non-empty string whose index key the store accepts (at most
    [maxKeySize] bytes), the handler submits it: the response is 201 when
    [submitJob] reports a fresh job and 200 when it reports a duplicate, in
    both cases with the fields [id], [name], [status] and [createdAt] of the
    job that [submitJob] returned, and the queue is the one [submitJob]
    left.  When [name] is a non-empty string that [submitJob] would write
    (no duplicate) and the store refuses its index key, [submitJob] throws:
    the handler sends no response, neither 201 nor 200, and the queue and
    the event log are as before. *)
Theorem post_bird_responses CONFIG (maxKeySize : nat) (now now_log : Z)
  (uuid : string) (name' : JsValue) (app : App) :
  (truthy name' = false ∨ typeof_string name' = false →
   post_bird CONFIG maxKeySize now now_log uuid name' app
   = (Some {| statusCode := 400;
              json := ErrorJson "Missing required field: name" |},
      app))
  ∧ (∀ s, name' = JsString s → s ≠ "" →
       key_fits maxKeySize (indexKey CONFIG now (toJobId s)) = true →
       let r := submitJob CONFIG now s (app_queue app) in
       (post_bird CONFIG maxKeySize now now_log uuid name' app).1
       = Some {| statusCode := if r.1.2 then 200 else 201;
                 json := JobJson (id r.1.1) (name r.1.1) (status r.1.1)
                           (createdAt r.1.1) |}
       ∧ app_queue (post_bird CONFIG maxKeySize now now_log uuid name' app).2
         = r.2)
  ∧ (∀ s, name' = JsString s → s ≠ "" →
       key_fits maxKeySize (indexKey CONFIG now (toJobId s)) = false →
       (submitJob CONFIG now s (app_queue app)).1.2 = false →
       post_bird CONFIG maxKeySize now now_log uuid name' app = (None, app)).
Proof.
  split; [| split].
  - intros Hbad. unfold post_bird.
    destruct Hbad as [-> | ->]; simpl; [done |].
    by rewrite orb_true_r.
  - intros s -> Hs Hfits r. subst r. unfold post_bird. simpl.
    destruct (String.eqb_spec s ""); [done |]. simpl.
    rewrite (submitJob_returns _ _ _ _ _ Hfits).
    destruct (submitJob CONFIG now s (app_queue app)) as [[job isDuplicate] q'].
    by destruct isDuplicate.
  - intros s -> Hs Hfits Hfresh. unfold post_bird. simpl.
    destruct (String.eqb_spec s ""); [done |]. simpl.
    by rewrite (submitJob_refused _ _ _ _ _ Hfits Hfresh).
Qed.

Lemma post_bird_responses_witness :
  let app := {| app_queue := empty_queue; app_observer := ∅ |} in
  post_bird default_config 1978 10 11 "u1" (JsNumber 123) app
  = (Some {| statusCode := 400;
             json := ErrorJson "Missing required field: name" |},
     app)
  ∧ (post_bird default_config 1978 10 11 "u1" (JsString "Brown Pelican") app).1
    = Some {| statusCode := 201;
              json := JobJson "brown-pelican" "Brown Pelican" queued 10 |}
  ∧ post_bird default_config 1978 10 11 "u1"
      (JsString (Js.repeat_fill 1965 "a" "a")) app
    = (None, app).
Proof.
  intros app.
  destruct (post_bird_responses default_config 1978 10 11 "u1" (JsNumber 123)
              app) as (H400 & _ & _).
  destruct (post_bird_responses default_config 1978 10 11 "u1"
              (JsString "Brown Pelican") app) as (_ & H201 & _).
  destruct (post_bird_responses default_config 1978 10 11 "u1"
              (JsString (Js.repeat_fill 1965 "a" "a")) app) as (_ & _ & H500).
  split; [apply H400; by right |]. split.
  - destruct (H201 "Brown Pelican" eq_refl) as [-> _];
      [discriminate | vm_compute; reflexivity | vm_compute; reflexivity].
  - apply (H500 _ eq_refl).
    + intros Hempty. apply (f_equal String.length) in Hempty.
      vm_compute in Hempty. discriminate Hempty.
    + vm_compute. reflexivity.
    + vm_compute. reflexivity.
Defined.

(** The statement of C8 as written fails for the empty string: it is a
    string, yet the guard [!name] rejects it with status 400. *)
Lemma post_bird_empty_name :
  let app := {| app_queue := empty_queue; app_observer := ∅ |} in
  ¬ (∀ s : string,
       statusCode <$> (post_bird default_config 1978 10 11 "u1" (JsString s)
                         app).1 = Some 201
       ∨ statusCode <$> (post_bird default_config 1978 10 11 "u1" (JsString s)
                           app).1 = Some 200)
  ∧ post_bird default_config 1978 10 11 "u1" (JsString "") app
    = (Some {| statusCode := 400;
               json := ErrorJson "Missing required field: name" |},
       app).
Proof.
  intros app. split; [| reflexivity].
  intros Hall.
  destruct (Hall "") as [Hs | Hs]; vm_compute in Hs; discriminate Hs.
Qed.

(** ** The worker loop *)

Section WorkerFacts.
Variable CONFIG : Config.
Hypothesis MAX_RETRIES_nonneg : 0 ≤ MAX_RETRIES CONFIG.

Ltac simpl_state := cbn [queue jobs queueIndex inflight fst snd].

Lemma consistent_initial : consistent CONFIG initial.
Proof.
  split; simpl; try (intros; simplify_map_eq; done).
  - intros job Hin. by apply not_elem_of_nil in Hin.
  - constructor.
Qed.

Lemma consistent_index_delete s key :
  consistent CONFIG s →
  consistent CONFIG
    {| queue := {| jobs := jobs (queue s);
                   queueIndex := delete key (queueIndex (queue s)) |};
       inflight := inflight s |}.
Proof.
  intros [Hids Hbound Hindex Huniq Hheld Hnodup]. split; simpl; try done.
  - intros k v [_ Hk]%lookup_delete_Some. eauto.
  - intros k1 k2 v [_ H1]%lookup_delete_Some [_ H2]%lookup_delete_Some. eauto.
Qed.

Lemma consistent_index_insert s key v j :
  consistent CONFIG s →
  jobs (queue s) !! v = Some j → status j = queued →
  (∀ k, queueIndex (queue s) !! k ≠ Some v) →
  consistent CONFIG
    {| queue := {| jobs := jobs (queue s);
                   queueIndex := <[key := v]> (queueIndex (queue s)) |};
       inflight := inflight s |}.
Proof.
  intros [Hids Hbound Hindex Huniq Hheld Hnodup] Hj Hst Hfresh.
  split; simpl; try done.
  - intros k v' [[_ <-] | [_ Hk]]%lookup_insert_Some; eauto.
  - intros k1 k2 v' [[<- <-] | [? H1]]%lookup_insert_Some
      [[<- Hv] | [? H2]]%lookup_insert_Some; try done.
    + subst. by destruct (Hfresh k2).
    + subst. by destruct (Hfresh k1).
    + eauto.
Qed.

Lemma consistent_jobs_insert s jobId job' :
  consistent CONFIG s →
  id job' = jobId → retryCount job' ≤ MAX_RETRIES CONFIG →
  (∀ k, queueIndex (queue s) !! k ≠ Some jobId) →
  (∀ job, job ∈ inflight s → id job ≠ jobId) →
  consistent CONFIG
    {| queue := {| jobs := <[jobId := job']> (jobs (queue s));
                   queueIndex := queueIndex (queue s) |};
       inflight := inflight s |}.
Proof.
  intros [Hids Hbound Hindex Huniq Hheld Hnodup] Hid Hr Hfresh Hfree.
  split; simpl; try done.
  - intros k j [[<- <-] | [_ Hk]]%lookup_insert_Some; eauto.
  - intros k j [[<- <-] | [_ Hk]]%lookup_insert_Some; eauto.
  - intros key v Hkey. destruct (decide (v = jobId)) as [-> | Hne].
    + by destruct (Hfresh key).
    + rewrite lookup_insert_ne by done. eauto.
  - intros job Hin. rewrite lookup_insert_ne by (symmetry; by apply Hfree).
    eauto.
Qed.

Lemma consistent_enqueue s key jobId job' :
  consistent CONFIG s →
  id job' = jobId → retryCount job' ≤ MAX_RETRIES CONFIG →
  status job' = queued →
  (∀ k, queueIndex (queue s) !! k ≠ Some jobId) →
  (∀ job, job ∈ inflight s → id job ≠ jobId) →
  consistent CONFIG
    {| queue := {| jobs := <[jobId := job']> (jobs (queue s));
                   queueIndex := <[key := jobId]> (queueIndex (queue s)) |};
       inflight := inflight s |}.
Proof.
  intros Hs Hid Hr Hst Hfresh Hfree.
  exact (consistent_index_insert
           {| queue := {| jobs := <[jobId := job']> (jobs (queue s));
                          queueIndex := queueIndex (queue s) |};
              inflight := inflight s |} key jobId job'
           (consistent_jobs_insert s jobId job' Hs Hid Hr Hfresh Hfree)
           (lookup_insert_eq (jobs (queue s)) jobId job') Hst Hfresh).
Qed.

Lemma consistent_hold s job j :
  consistent CONFIG s →
  jobs (queue s) !! id job = Some j → status j = processing →
  retryCount j = retryCount job →
  (∀ job', job' ∈ inflight s → id job' ≠ id job) →
  consistent CONFIG {| queue := queue s; inflight := job :: inflight s |}.
Proof.
  intros [Hids Hbound Hindex Huniq Hheld Hnodup] Hj Hst Hr Hfree.
  split; try done.
  - intros job' [-> | Hin]%elem_of_cons; eauto.
  - simpl inflight. rewrite fmap_cons. constructor; [| done].
    intros (job' & Heq & Hin)%list_elem_of_fmap. by destruct (Hfree job' Hin).
Qed.

Lemma consistent_release s l1 job l2 :
  consistent CONFIG s → inflight s = l1 ++ job :: l2 →
  consistent CONFIG {| queue := queue s; inflight := l1 ++ l2 |}
  ∧ (∀ job', job' ∈ l1 ++ l2 → id job' ≠ id job)
  ∧ (∀ k, queueIndex (queue s) !! k ≠ Some (id job))
  ∧ ∃ j, jobs (queue s) !! id job = Some j ∧ status j = processing
         ∧ retryCount j = retryCount job.
Proof.
  intros [Hids Hbound Hindex Huniq Hheld Hnodup] Hl. rewrite Hl in *.
  rewrite fmap_app, fmap_cons in Hnodup.
  apply NoDup_app in Hnodup as (Hn1 & Hn12 & Hn2).
  apply NoDup_cons in Hn2 as [Hn2 Hn3].
  assert (∀ job', job' ∈ l1 ++ l2 → id job' ≠ id job) as Hfree.
  { intros job' Hin Heq. apply elem_of_app in Hin as [Hin | Hin].
    - apply (Hn12 (id job')); [by apply list_elem_of_fmap_2 |].
      rewrite Heq. left.
    - apply Hn2. rewrite <- Heq. by apply list_elem_of_fmap_2. }
  destruct (Hheld job) as (j & Hj & Hst & Hr);
    [apply elem_of_app; right; left |].
  repeat split; simpl; try done.
  - intros job' Hin. apply Hheld.
    rewrite elem_of_app, elem_of_cons. rewrite elem_of_app in Hin. tauto.
  - rewrite fmap_app. apply NoDup_app. repeat split; [done | | done].
    intros x Hx1 Hx2. apply (Hn12 x Hx1). by right.
  - intros k Hk. destruct (Hindex k _ Hk) as (j' & Hj' & Hst').
    rewrite Hj in Hj'. injection Hj' as <-. by rewrite Hst in Hst'.
  - eauto.
Qed.

Lemma consistent_submitJob s now request_name :
  consistent CONFIG s →
  consistent CONFIG
    {| queue := (submitJob CONFIG now request_name (queue s)).2;
       inflight := inflight s |}.
Proof.
  intros Hs. unfold submitJob.
  assert (∀ st, (∀ j, jobs (queue s) !! toJobId request_name = Some j →
                      status j = st) → st ≠ queued → st ≠ processing →
          (∀ k, queueIndex (queue s) !! k ≠ Some (toJobId request_name))
          ∧ (∀ job, job ∈ inflight s → id job ≠ toJobId request_name))
    as Hfresh.
  { intros st Hst Hq Hp. split.
    - intros k Hk. destruct (inv_index _ _ Hs k _ Hk) as (j & Hj & Hj').
      apply Hst in Hj. congruence.
    - intros job Hin Heq. destruct (inv_held _ _ Hs job Hin) as (j & Hj & Hj' & _).
      rewrite Heq in Hj. apply Hst in Hj. congruence. }
  destruct (jobs (queue s) !! toJobId request_name) as [existing|] eqn:Hex.
  - destruct (decide (status existing = failed)) as [Hfailed | ?];
      [| by destruct s as [[??]?]].
    destruct (Hfresh failed) as [Hidx Hfree]; [by intros j [= <-] | done ..|].
    simpl_state. apply consistent_enqueue; try done.
    apply (inv_ids _ _ Hs _ _ Hex).
  - destruct (Hfresh failed) as [Hidx Hfree]; [done ..|].
    simpl_state. by apply consistent_enqueue.
Qed.

Lemma consistent_poll_claim s now :
  consistent CONFIG s → consistent CONFIG (poll_claim CONFIG now s).
Proof.
  intros Hs. unfold poll_claim.
  destruct (claimJob CONFIG now (queue s)) as [[job|] q'] eqn:Hclaim.
  - apply claimJob_Some in Hclaim
      as (key & value & stored & Hhd & _ & Hstored & -> & ->).
    apply getRange_limit1_cons in Hhd as (_ & Hkey & _).
    destruct (inv_index _ _ Hs _ _ Hkey) as (j & Hj & Hqueued).
    rewrite Hstored in Hj. injection Hj as <-.
    pose proof (inv_ids _ _ Hs _ _ Hstored) as Hid.
    assert (∀ job', job' ∈ inflight s → id job' ≠ id stored) as Hfree.
    { intros job' Hin Heq.
      destruct (inv_held _ _ Hs job' Hin) as (j & Hj & Hproc & _).
      rewrite Heq, Hid, Hstored in Hj. injection Hj as <-. congruence. }
    set (updated := {| id := id stored; status := processing |}).
    assert (∀ k, delete key (queueIndex (queue s)) !! k ≠ Some (id stored))
      as Hgone.
    { intros k [Hne Hk]%lookup_delete_Some. rewrite Hid in Hk.
      apply Hne. symmetry. apply (inv_unique _ _ Hs _ _ _ Hk Hkey). }
    pose proof (consistent_jobs_insert _ (id stored) updated
                  (consistent_index_delete s key Hs) eq_refl
                  (inv_bound _ _ Hs _ _ Hstored) Hgone Hfree) as Hput.
    exact (consistent_hold _ updated updated Hput
             (lookup_insert_eq (jobs (queue s)) (id stored) updated)
             eq_refl eq_refl Hfree).
  - unfold claimJob in Hclaim.
    destruct (getRange_limit1 (queueIndex (queue s))) as [|[key value] rest].
    { injection Hclaim as <-. by destruct s. }
    unfold claim_entry in Hclaim.
    destruct (Js.gt _ now); [injection Hclaim as <-; by destruct s |].
    destruct (jobs (queue s) !! value); [done |].
    injection Hclaim as <-. by apply consistent_index_delete.
Qed.

Lemma consistent_on_settled s l1 job l2 now jitter o :
  consistent CONFIG s → inflight s = l1 ++ job :: l2 →
  consistent CONFIG
    {| queue := (on_settled CONFIG now jitter job o (queue s)).1;
       inflight := l1 ++ l2 |}.
Proof.
  intros Hs Hl.
  destruct (consistent_release s l1 job l2 Hs Hl)
    as (Hs' & Hfree & Hidx & j & Hj & Hproc & Hr).
  pose proof (inv_ids _ _ Hs _ _ Hj) as Hid.
  pose proof (inv_bound _ _ Hs _ _ Hj) as Hbound.
  unfold on_settled. destruct o as [result|].
  - unfold completeJob. rewrite Hj. simpl_state.
    by apply (consistent_jobs_insert {| queue := queue s; inflight := l1 ++ l2 |}
                _ _ Hs').
  - destruct (Z.leb_spec (MAX_RETRIES CONFIG) (retryCount job)) as [Hmax | Hless].
    + unfold failJob. rewrite Hj. simpl_state.
      by apply (consistent_jobs_insert {| queue := queue s; inflight := l1 ++ l2 |}
                  _ _ Hs').
    + unfold retryJob. rewrite Hj. simpl_state.
      apply (consistent_enqueue {| queue := queue s; inflight := l1 ++ l2 |}
               _ _ _ Hs'); simpl_state; try done. cbn [retryCount]. lia.
Qed.

Lemma consistent_step s s' :
  consistent CONFIG s → step CONFIG s s' → consistent CONFIG s'.
Proof.
  intros Hs Hstep. destruct Hstep.
  - by apply consistent_submitJob.
  - by apply consistent_poll_claim.
  - by eapply consistent_on_settled.
Qed.

Lemma consistent_reachable s : reachable CONFIG s → consistent CONFIG s.
Proof.
  induction 1; [apply consistent_initial | by eapply consistent_step].
Qed.
End WorkerFacts.

(** In a reachable state a claim never hands out a job that some worker
    still holds: claims that follow one another return different jobs. *)
Lemma claimJob_not_inflight CONFIG s now job q' :
  0 ≤ MAX_RETRIES CONFIG → reachable CONFIG s →
  claimJob CONFIG now (queue s) = (Some job, q') →
  ∀ held, held ∈ inflight s → id held ≠ id job.
Proof.
  intros Hmax Hs%consistent_reachable Hclaim held Hin Heq; [| done].
  apply claimJob_Some in Hclaim
    as (key & value & stored & Hhd & _ & Hstored & -> & _).
  apply getRange_limit1_cons in Hhd as (_ & Hkey & _).
  destruct (inv_index _ _ Hs _ _ Hkey) as (j & Hj & Hqueued).
  destruct (inv_held _ _ Hs held Hin) as (j' & Hj' & Hproc & _).
  rewrite Heq in Hj'. cbn [id] in Hj'.
  rewrite (inv_ids _ _ Hs _ _ Hstored) in Hj'. congruence.
Qed.

Section RetryCount.
Variable CONFIG : Config.

Lemma retryJob_increments jobId nextAvailableAt q job :
  jobs q !! jobId = Some job →
  ∃ updated,
    (retryJob CONFIG jobId nextAvailableAt q).1 = Some updated
    ∧ jobs (retryJob CONFIG jobId nextAvailableAt q).2 !! jobId = Some updated
    ∧ retryCount updated = retryCount job + 1
    ∧ ∀ k, k ≠ jobId →
        jobs (retryJob CONFIG jobId nextAvailableAt q).2 !! k = jobs q !! k.
Proof.
  intros Hjob. unfold retryJob. rewrite Hjob. eexists.
  split; [reflexivity |]. cbn [snd jobs].
  split; [apply lookup_insert_eq |]. split; [done |].
  intros k Hk. by apply lookup_insert_ne.
Qed.

Lemma no_increment_refl q : no_increment q q.
Proof. intros k j Hk. right. eauto. Qed.

Lemma no_increment_insert q q' jobId job' :
  jobs q' = <[jobId := job']> (jobs q) →
  (retryCount job' = 0 ∨ ∃ k0 j, jobs q !! k0 = Some j ∧ retryCount j = retryCount job') →
  no_increment q q'.
Proof.
  intros Hq' Hnew k j. rewrite Hq'.
  intros [[<- <-] | [_ Hk]]%lookup_insert_Some; [done |]. right. eauto.
Qed.

Lemma submitJob_no_increment now request_name q :
  no_increment q (submitJob CONFIG now request_name q).2.
Proof.
  unfold submitJob. destruct (jobs q !! toJobId request_name) as [existing|].
  - destruct (decide (status existing = failed)); [| apply no_increment_refl].
    eapply no_increment_insert; [reflexivity | by left].
  - eapply no_increment_insert; [reflexivity | by left].
Qed.

Lemma claimJob_no_increment now q : no_increment q (claimJob CONFIG now q).2.
Proof.
  unfold claimJob.
  destruct (getRange_limit1 (queueIndex q)) as [|[key value] rest];
    [apply no_increment_refl |].
  unfold claim_entry. destruct (Js.gt _ now); [apply no_increment_refl |].
  destruct (jobs q !! value) as [stored|] eqn:Hstored.
  - eapply no_increment_insert; [reflexivity |]. right. eauto.
  - intros k j Hk. right. eauto.
Qed.

Lemma completeJob_no_increment jobId body' q :
  no_increment q (completeJob jobId body' q).2.
Proof.
  unfold completeJob. destruct (jobs q !! jobId) as [job|] eqn:Hjob;
    [| apply no_increment_refl].
  eapply no_increment_insert; [reflexivity |]. right. eauto.
Qed.

Lemma failJob_no_increment jobId q : no_increment q (failJob jobId q).2.
Proof.
  unfold failJob. destruct (jobs q !! jobId) as [job|] eqn:Hjob;
    [| apply no_increment_refl].
  eapply no_increment_insert; [reflexivity |]. right. eauto.
Qed.
End RetryCount.

(** C4.  Let [MAX_RETRIES] be a non-negative integer.  In every state
    reachable from the empty store by submissions and worker ticks (claim,
    then complete, retry or fail once the processor has settled), every job
    record has [retryCount ≤ MAX_RETRIES].  When the processor fails a job
    whose [retryCount] equals [MAX_RETRIES], the worker calls [failJob] and
    not [retryJob].  [retryJob] adds exactly one to the [retryCount] of the
    job it is given and touches no other record; [submitJob], [claimJob],
    [completeJob] and [failJob] never produce a retry count that is neither
    zero nor already present. *)
Theorem retryCount_bounded CONFIG :
  0 ≤ MAX_RETRIES CONFIG →
  (∀ s, reachable CONFIG s →
     ∀ k j, jobs (queue s) !! k = Some j → retryCount j ≤ MAX_RETRIES CONFIG)
  ∧ (∀ now jitter job q,
       retryCount job = MAX_RETRIES CONFIG →
       on_settled CONFIG now jitter job Rejected q
       = ((failJob (id job) q).2, (JOB_FAILED, error)))
  ∧ (∀ jobId nextAvailableAt q job,
       jobs q !! jobId = Some job →
       ∃ updated,
         (retryJob CONFIG jobId nextAvailableAt q).1 = Some updated
         ∧ jobs (retryJob CONFIG jobId nextAvailableAt q).2 !! jobId = Some updated
         ∧ retryCount updated = retryCount job + 1
         ∧ ∀ k, k ≠ jobId →
             jobs (retryJob CONFIG jobId nextAvailableAt q).2 !! k = jobs q !! k)
  ∧ (∀ now request_name q,
       no_increment q (submitJob CONFIG now request_name q).2)
  ∧ (∀ now q, no_increment q (claimJob CONFIG now q).2)
  ∧ (∀ jobId body' q, no_increment q (completeJob jobId body' q).2)
  ∧ (∀ jobId q, no_increment q (failJob jobId q).2).
Proof.
  intros Hmax. split.
  { intros s Hs. apply (inv_bound CONFIG s).
    by apply consistent_reachable. }
  split.
  { intros now jitter job q Hr. unfold on_settled.
    by rewrite (proj2 (Z.leb_le _ _)) by lia. }
  split; [apply retryJob_increments |].
  split; [apply submitJob_no_increment |].
  split; [apply claimJob_no_increment |].
  split; [apply completeJob_no_increment | apply failJob_no_increment].
Qed.

Lemma retryCount_bounded_witness :
  0 ≤ MAX_RETRIES default_config
  ∧ ∃ s j, reachable default_config s
           ∧ jobs (queue s) !! "a" = Some j
           ∧ retryCount j = 1
           ∧ retryCount j ≤ MAX_RETRIES default_config.
Proof.
  assert (0 ≤ MAX_RETRIES default_config) as Hmax by (simpl; lia).
  split; [done |].
  destruct (retryCount_bounded default_config Hmax) as [Hbound _].
  set (s1 := {| queue := (submitJob default_config 10 "A" (queue initial)).2;
                inflight := inflight initial |}).
  set (s2 := poll_claim default_config 11 s1).
  set (job := {| id := "a"; name := "A"; createdAt := 10;
                 availableForProcessingAt := 10; retryCount := 0;
                 status := processing; body := ∅ |}).
  set (s3 := {| queue := (on_settled default_config 12 5 job Rejected (queue s2)).1;
                inflight := [] ++ [] |}).
  assert (reachable default_config s3) as Hreach.
  { apply (reachable_step _ s2).
    - apply (reachable_step _ s1).
      + apply (reachable_step _ initial); [constructor | apply step_submit].
      + apply step_claim.
    - apply (step_settled _ s2 [] job [] 12 5 Rejected). by vm_compute. }
  exists s3,
    {| id := "a"; name := "A"; createdAt := 10;
       availableForProcessingAt := 2017; retryCount := 1;
       status := queued; body := ∅ |}.
  split; [done |]. split; [by vm_compute |]. split; [done |].
  apply (Hbound s3 Hreach "a"). by vm_compute.
Defined.

Example String_of_number_ex : Js.String_of_number 1700000008123 = "1700000008123".
Proof. reflexivity. Qed.
Example padStart_ex : Js.padStart 13 "0" (Js.String_of_number 42) = "0000000000042".
Proof. reflexivity. Qed.
Example parseInt_ex : Js.parseInt (Js.slice0 13 "0000000000042-brown-pelican") = Some 42.
Proof. reflexivity. Qed.
Example parseInt_nan : Js.parseInt "-x" = None.
Proof. reflexivity. Qed.

Example submit_ex :
  (submitJob default_config 10 "Brown Pelican" (empty_queue)).1.1.(id) = "brown-pelican".
Proof. reflexivity. Qed.
Example claim_ex :
  (claimJob default_config 11 (submitJob default_config 10 "Brown  Pelican" empty_queue).2).1
  = Some {| id := "brown-pelican"; name := "Brown  Pelican"; createdAt := 10;
            availableForProcessingAt := 10; retryCount := 0; status := processing; body := ∅ |}.
Proof. vm_compute. reflexivity. Qed.

(** The retry-ordering scenario of the queue tests: a fresh job is claimed
    before a retried job whose availability lies in the future, and the
    retried job comes back, with [retryCount = 1], once its time arrives. *)
Example retry_ordering :
  let q1 := (submitJob default_config 10 "A" empty_queue).2 in
  let q2 := (claimJob default_config 11 q1).2 in
  let q3 := (retryJob default_config "a" 60011 q2).2 in
  let q4 := (submitJob default_config 12 "B" q3).2 in
  let c1 := claimJob default_config 13 q4 in
  let c2 := claimJob default_config 14 c1.2 in
  let c3 := claimJob default_config 70000 c2.2 in
  (id <$> c1.1) = Some "b" ∧ c2.1 = None
  ∧ (id <$> c3.1) = Some "a" ∧ (retryCount <$> c3.1) = Some 1.
Proof. by vm_compute. Qed.

Example no_double_claim :
  let q1 := (submitJob default_config 10 "Brown Pelican" empty_queue).2 in
  let c1 := claimJob default_config 11 q1 in
  (status <$> c1.1) = Some processing
  ∧ (claimJob default_config 12 c1.2).1 = None.
Proof. by vm_compute. Qed.

Example toJobId_ex : toJobId "  Snowy 	 OWL " = "-snowy-owl-".
Proof. reflexivity. Qed.

(** The longest name the store takes with 13-digit time stamps and a
    1978-byte bound has 1964 characters; one more and [submitJob] throws. *)
Example post_bird_longest_name :
  statusCode <$> (post_bird default_config 1978 10 11 "u1"
                    (JsString (Js.repeat_fill 1964 "a" "a"))
                    {| app_queue := empty_queue; app_observer := ∅ |}).1
  = Some 201.
Proof. vm_compute. reflexivity. Qed.

Example submitJob_throws_ex :
  key_bytes (indexKey default_config 10 (toJobId (Js.repeat_fill 1965 "a" "a")))
  = 1979%nat
  ∧ submitJob_throws default_config 1978 10 (Js.repeat_fill 1965 "a" "a")
      empty_queue = true.
Proof. split; vm_compute; reflexivity. Qed.

(** An event older than the window is not counted. *)
Example getMetrics_window_ex :
  let db :=
    Observer.log default_config 1000000 "u2" JOB_COMPLETED log_ ∅
      (Observer.log default_config 5 "u1" JOB_FAILED error ∅ ∅) in
  Observer.failed (Observer.getMetrics default_config 1000001 (Some 100) db) = 0
  ∧ Observer.completed (Observer.getMetrics default_config 1000001 (Some 100) db)
    = 1.
Proof. split; vm_compute; reflexivity. Qed.
